(** * Hex-map generation of [random.cpp]: grid arithmetic, Voronoi regions,
      region adjacency and greedy terrain colouring.

    The C++ functions are embedded as Rocq functions of the same name.
    - [int] values are kept as [Z]; every [int] computed here from a valid
      cell index stays far below 2^31, so no wrap-around is written for it.
    - [Sint16] values are [Z] too, and every conversion of an [int] to
      [Sint16] is written out as [toSint16].
    - [/] and [%] of C++ truncate towards zero: [Z.quot] and [Z.rem].
    - [std::vector] is a [list]; reading or writing outside the vector, and
      a failing [assert], make the embedded function return [None]. *)

From stdpp Require Import base option list list_numbers.
From Stdlib Require Import ZArith Lia.

Open Scope Z_scope.

(** ** Machine integers *)

Definition Sint16_max : Z := 32767.

(** Conversion of an [int] to [Sint16] (two's complement wrap-around). *)
Definition toSint16 (z : Z) : Z := (z + 32768) `mod` 65536 - 32768.

(** [Point] is [std::pair<Sint16, Sint16>]: [first] is the column [hx],
    [second] the row [hy]. *)
Abbreviation Point := (Z * Z)%type.

(** ** Constants *)

Definition hMapWidth : Z := 16.
Definition hMapHeight : Z := 9.
Definition hMapSize : Z := toSint16 (hMapWidth * hMapHeight).
Definition numRegions : Z := 18.
Definition numTerrains : Z := 6.
Definition hInvalid : Point := (-1, -1).

(** ** Vectors and loops *)

(** [v[i]] as an rvalue. The source does not check the index; a read
    outside the vector, which is undefined there, has no result here. *)
Definition vget {A} (v : list A) (i : Z) : option A :=
  guard (0 ≤ i);; v !! Z.to_nat i.

(** [v[i] = x]. *)
Definition vset {A} (v : list A) (i : Z) (x : A) : option (list A) :=
  guard (0 ≤ i < Z.of_nat (length v));; Some (<[Z.to_nat i := x]> v).

(** [n] iterations of a loop body, the counter starting at [i]. *)
Fixpoint forZ {St} (n : nat) (i : Z) (body : Z → St → option St) (s : St)
  : option St :=
  match n with
  | O => Some s
  | S n' => s' ← body i s; forZ n' (i + 1) body s'
  end.

(** [for (int i = lo; i < hi; ++i) body]. *)
Definition for_range {St} (lo hi : Z) (body : Z → St → option St) (s : St)
  : option St :=
  forZ (Z.to_nat (hi - lo)) lo body s.

(** [for (auto x : l) body]. *)
Fixpoint for_each {A St} (l : list A) (body : A → St → option St) (s : St)
  : option St :=
  match l with
  | [] => Some s
  | x :: l' => s' ← body x s; for_each l' body s'
  end.

(** ** Grid coordinate math *)

Definition hexFromAry (aIndex : Z) : Point :=
  (toSint16 (aIndex `rem` hMapWidth), toSint16 (aIndex `quot` hMapWidth)).

Definition aryFromHex (hex : Point) : Z :=
  hex.2 * hMapWidth + hex.1.

(** The two-argument overload [aryFromHex(hx, hy)]. *)
Definition aryFromHexXY (hx hy : Z) : Z :=
  hy * hMapWidth + hx.

(** [hexRandom], given the value [aRand] that the uniform distribution
    over [0, hMapWidth * hMapHeight - 1] draws. *)
Definition hexRandom (aRand : Z) : Point :=
  hexFromAry aRand.

Definition hexDist (h1 h2 : Point) : Z :=
  if bool_decide (h1 = hInvalid) || bool_decide (h2 = hInvalid) then
    Sint16_max
  else
    let dx := toSint16 (Z.abs (h1.1 - h2.1)) in
    let dy := toSint16 (Z.abs (h1.2 - h2.2)) in
    let vPenalty :=
      if (h1.2 <? h2.2) && (h1.1 `rem` 2 =? 0) && (h2.1 `rem` 2 =? 1)
         || (h1.2 >? h2.2) && (h1.1 `rem` 2 =? 1) && (h2.1 `rem` 2 =? 0)
      then 1 else 0 in
    Z.max dx (toSint16 (dy + vPenalty + dx `quot` 2)).

(** The result [-1] means that no tile exists in that direction; a
    direction outside 0..5 fails the assertion. *)
Definition aryGetNeighbor (aIndex dir : Z) : option Z :=
  guard (0 ≤ dir < 6);;
  Some
    (if (dir =? 0) && (aIndex >=? hMapWidth) then
       aIndex - hMapWidth
     else if (dir =? 1) && (aIndex `rem` hMapWidth <? hMapWidth - 1) then
       if aIndex `rem` 2 =? 0 then
         if aIndex >=? hMapWidth then aIndex - hMapWidth + 1 else -1
       else aIndex + 1
     else if (dir =? 2) && (aIndex `rem` hMapWidth <? hMapWidth - 1) then
       if aIndex `rem` 2 =? 0 then aIndex + 1
       else
         if aIndex <? hMapSize - hMapWidth then aIndex + hMapWidth + 1
         else -1
     else if (dir =? 3) && (aIndex <? hMapSize - hMapWidth) then
       aIndex + hMapWidth
     else if (dir =? 4) && (aIndex `rem` hMapWidth >? 0) then
       if aIndex `rem` 2 =? 0 then aIndex - 1
       else
         if aIndex <? hMapSize - hMapWidth then aIndex + hMapWidth - 1
         else -1
     else if (dir =? 5) && (aIndex `rem` hMapWidth >? 0) then
       if aIndex `rem` 2 =? 0 then
         if aIndex >=? hMapWidth then aIndex - hMapWidth - 1 else -1
       else aIndex - 1
     else -1).

Definition aryNeighbors (aIndex : Z) : option (list Z) :=
  for_range 0 6
    (λ dir av,
       aNeighbor ← aryGetNeighbor aIndex dir;
       Some (if aNeighbor =? -1 then av else av ++ [aNeighbor]))
    [].

Definition hexNeighbors (hex : Point) : option (list Point) :=
  av ← aryNeighbors (aryFromHex hex);
  for_each av (λ aNeighbor hv, Some (hv ++ [hexFromAry aNeighbor])) [].

(** ** Region partitioner *)

(** Body of the loop of [rFindClosest]; the state is
    [(rClosest, bestSoFar)]. *)
Definition rFindClosestStep (hx hy : Z) (hCenters : list Point)
    (i : Z) (st : Z * Z) : option (Z * Z) :=
  c ← vget hCenters i;
  let dist := hexDist (hx, hy) c in
  Some (if dist <? st.2 then (i, dist) else st).

Definition rFindClosest (hx hy : Z) (hCenters : list Point) : option Z :=
  st ← for_range 0 numRegions (rFindClosestStep hx hy hCenters)
         (-1, Sint16_max);
  Some st.1.

(** Body of the inner loop of [hGetCenters]; the state is
    [(hexSums, numHexes)]. *)
Definition hGetCentersCell (regions : list Z) (hx hy : Z)
    (st : list Point * list Z) : option (list Point * list Z) :=
  region ← vget regions (hy * hMapWidth + hx);
  guard (0 ≤ region < numRegions);;
  hs ← vget st.1 region;
  hexSums ← vset st.1 region (toSint16 (hs.1 + hx), toSint16 (hs.2 + hy));
  n ← vget st.2 region;
  numHexes ← vset st.2 region (n + 1);
  Some (hexSums, numHexes).

Definition hGetCenters (regions : list Z) : option (list Point) :=
  guard (Z.of_nat (length regions) = hMapSize);;
  st ← for_range 0 hMapWidth
         (λ hx, for_range 0 hMapHeight (hGetCentersCell regions hx))
         (replicate (Z.to_nat numRegions) (0, 0),
          replicate (Z.to_nat numRegions) 0);
  for_range 0 numRegions
    (λ r hCenters,
       n ← vget st.2 r;
       if 0 <? n then
         hs ← vget st.1 r;
         vset hCenters r (toSint16 (hs.1 `quot` n), toSint16 (hs.2 `quot` n))
       else Some hCenters)
    (replicate (Z.to_nat numRegions) hInvalid).

(** The loop nest that [rGenerate] runs once per relaxation round and once
    more at the end: every hex gets the number of its closest center. *)
Definition rAssignClosest (hCenters : list Point) (regions : list Z)
  : option (list Z) :=
  for_range 0 hMapWidth
    (λ hx,
       for_range 0 hMapHeight
         (λ hy regions,
            r ← rFindClosest hx hy hCenters;
            vset regions (hy * hMapWidth + hx) r))
    regions.

(** Body of the relaxation loop of [rGenerate]; the state is
    [(hCenters, regions)]. *)
Definition rGenerateRound (st : list Point * list Z)
  : option (list Point * list Z) :=
  regions ← rAssignClosest st.1 st.2;
  hCenters ← hGetCenters regions;
  Some (hCenters, regions).

(** The first loop of [rGenerate]; [aRands] holds the values drawn from the
    random source, in the order in which they are drawn. *)
Definition rGenerateSeeds (aRands : list Z) : option (list Point) :=
  for_range 0 numRegions
    (λ r hCenters, aRand ← vget aRands r; Some (hCenters ++ [hexRandom aRand]))
    [].

(** State of [rGenerate] after the first [rounds] relaxation rounds. *)
Definition rGenerateRounds (rounds : Z) (aRands : list Z)
  : option (list Point * list Z) :=
  hCenters ← rGenerateSeeds aRands;
  for_range 0 rounds (λ _, rGenerateRound)
    (hCenters, replicate (Z.to_nat hMapSize) 0).

Definition rGenerate (aRands : list Z) : option (list Z) :=
  st ← rGenerateRounds 4 aRands;
  rAssignClosest st.1 st.2.

(** ** Adjacency builder *)

(** Body of the inner loop of [regionNeighbors]. *)
Definition regionNeighborsHex (regions : list Z) (reg an : Z)
    (ret : list (list Z)) : option (list (list Z)) :=
  rNeighbor ← vget regions an;
  row ← vget ret reg;
  if bool_decide (rNeighbor ≠ reg) && bool_decide (rNeighbor ∉ row) then
    vset ret reg (row ++ [rNeighbor])
  else Some ret.

(** Body of the outer loop of [regionNeighbors]. *)
Definition regionNeighborsCell (regions : list Z) (i : Z)
    (ret : list (list Z)) : option (list (list Z)) :=
  reg ← vget regions i;
  guard (0 ≤ reg < numRegions);;
  av ← aryNeighbors i;
  for_each av (regionNeighborsHex regions reg) ret.

Definition regionNeighbors (regions : list Z) : option (list (list Z)) :=
  guard (Z.of_nat (length regions) = hMapSize);;
  for_range 0 hMapSize (regionNeighborsCell regions)
    (replicate (Z.to_nat numRegions) []).

(** ** Terrain colourer *)

(** [std::bitset<numTerrains>] as the integer of its bits. *)
Definition bitset_set (bits t : Z) : option Z :=
  guard (0 ≤ t < numTerrains);; Some (Z.lor bits (Z.shiftl 1 t)).

Definition bitset_test (bits t : Z) : bool := Z.testbit bits t.

Definition bitset_all (bits : Z) : bool := bits =? Z.ones numTerrains.

(** The neighbor loop of [assignTerrain]: the terrains already given to
    the regions of [nbrs]. *)
Definition assignedTerrainsOf (terrain : list Z) (nbrs : list Z) : option Z :=
  for_each nbrs
    (λ rNeighbor bits,
       guard (0 ≤ rNeighbor < numRegions);;
       t ← vget terrain rNeighbor;
       if t >? -1 then bitset_set bits t else Some bits)
    0.

(** The search loop [for (t = 0; t < numTerrains; ++t)] with its [break]:
    the first of the [n] terrains from [t] on whose bit is clear. *)
Fixpoint firstUnassigned (n : nat) (t : Z) (bits : Z) : option Z :=
  match n with
  | O => None
  | S n' =>
      if negb (bitset_test bits t) then Some t
      else firstUnassigned n' (t + 1) bits
  end.

(** Body of the loop of [assignTerrain]. The read [adj[r]] is defined in
    the source when [adj] has a list for region [r], that is for an
    adjacency list with at least [numRegions] lists. *)
Definition assignTerrainStep (adj : list (list Z)) (r : Z) (terrain : list Z)
  : option (list Z) :=
  nbrs ← vget adj r;
  assignedTerrains ← assignedTerrainsOf terrain nbrs;
  if negb (bitset_all assignedTerrains) then
    match firstUnassigned (Z.to_nat numTerrains) 0 assignedTerrains with
    | Some t => vset terrain r t
    | None => Some terrain
    end
  else vset terrain r 0.

Definition assignTerrain (adj : list (list Z)) : option (list Z) :=
  for_range 0 numRegions (assignTerrainStep adj)
    (replicate (Z.to_nat numRegions) (-1)).

(** ** Notions of the specification *)

(** A coordinate within the bounds of the grid. *)
Definition hexInBounds (h : Point) : Prop :=
  0 ≤ h.1 < hMapWidth ∧ 0 ≤ h.2 < hMapHeight.

(** The direction opposite to [dir], directions being numbered clockwise
    from north. *)
Definition oppositeDir (dir : Z) : Z := (dir + 3) `mod` 6.

(** Column step of the diagonal directions: east for NE (1) and SE (2),
    west for SW (4) and NW (5). *)
Definition diagColumnStep (dir : Z) : Z :=
  if (dir =? 1) || (dir =? 2) then 1 else -1.

(** Row step of the diagonal directions in the layout whose odd columns
    are shoved down: going north from an even column climbs one row and
    stays on the row from an odd one; going south stays on the row from an
    even column and descends one row from an odd one. *)
Definition diagRowStep (dir hx : Z) : Z :=
  if (dir =? 1) || (dir =? 5) then
    if hx `rem` 2 =? 0 then -1 else 0
  else
    if hx `rem` 2 =? 0 then 0 else 1.

(** The values drawn for the seeds: one per region, each a hex number. *)
Definition seedsValid (aRands : list Z) : Prop :=
  Z.of_nat (length aRands) = numRegions ∧
  Forall (λ aRand, 0 ≤ aRand < hMapWidth * hMapHeight) aRands.

(** A total region assignment of the right length: one region number per
    hex of the map. *)
Definition regionsTotal (regions : list Z) : Prop :=
  Z.of_nat (length regions) = hMapSize ∧
  Forall (λ r, 0 ≤ r < numRegions) regions.

(** An adjacency list over [numRegions] regions: one neighbor list per
    region, every entry a region number. *)
Definition adjOverRegions (adj : list (list Z)) : Prop :=
  Z.of_nat (length adj) = numRegions ∧
  Forall (Forall (λ rNeighbor, 0 ≤ rNeighbor < numRegions)) adj.

(** [r2] is in the neighbor list of [r1]. *)
Definition adjacentRegions (adj : list (list Z)) (r1 r2 : Z) : Prop :=
  ∃ nbrs, vget adj r1 = Some nbrs ∧ r2 ∈ nbrs.

(** The adjacency relation is symmetric, as sharing a border is: a region
    is in the neighbor list of every region of its own list. *)
Definition adjSymmetric (adj : list (list Z)) : Prop :=
  ∀ r1 r2, adjacentRegions adj r1 r2 → adjacentRegions adj r2 r1.

(** The terrain vector with which [assignTerrain] starts. *)
Definition terrainInit : list Z := replicate (Z.to_nat numRegions) (-1).

(** The terrain vector at the moment the loop of [assignTerrain] reaches
    region [r]. *)
Definition terrainBefore (adj : list (list Z)) (r : Z) : option (list Z) :=
  for_range 0 r (assignTerrainStep adj) terrainInit.

(** Terrain [t] is assigned, in the vector [terrain], to a region of
    [nbrs]. *)
Definition terrainUsed (terrain nbrs : list Z) (t : Z) : Prop :=
  ∃ rNeighbor, rNeighbor ∈ nbrs ∧ vget terrain rNeighbor = Some t.

(** At the moment region [r] is assigned, each of the [numTerrains]
    terrains is used by a neighbor of [r]. *)
Definition allTerrainsUsedAt (adj : list (list Z)) (r : Z) : Prop :=
  ∃ before nbrs,
    terrainBefore adj r = Some before ∧ vget adj r = Some nbrs ∧
    ∀ t, 0 ≤ t < numTerrains → terrainUsed before nbrs t.

(** The choice of the greedy colouring: the lowest terrain that no region
    of [nbrs] uses, or terrain 0 when they use all of them. *)
Definition greedyChoice (terrain nbrs : list Z) (t : Z) : Prop :=
  (0 ≤ t < numTerrains ∧ ¬ terrainUsed terrain nbrs t ∧
   ∀ t', 0 ≤ t' < t → terrainUsed terrain nbrs t') ∨
  (t = 0 ∧ ∀ t', 0 ≤ t' < numTerrains → terrainUsed terrain nbrs t').

(** The colouring property for every region [r1] and every other region
    [r2] of its neighbor list: different terrains, unless the
    later-processed of the two found all terrains in use. *)
Definition coloringValid (adj : list (list Z)) : Prop :=
  ∀ terrain r1 r2 t1 t2,
    assignTerrain adj = Some terrain →
    r1 ≠ r2 →
    adjacentRegions adj r1 r2 →
    vget terrain r1 = Some t1 →
    vget terrain r2 = Some t2 →
    t1 ≠ t2 ∨ allTerrainsUsedAt adj (Z.max r1 r2).

(** ** States of the loops *)

(** State of the loop of [rFindClosest] when it reaches center [k]:
    nothing found yet among centers at the largest distance, or the
    center [st.1] found at the distance [st.2] below it. *)
Definition closestState (hx hy : Z) (hCenters : list Point) (k : Z)
    (st : Z * Z) : Prop :=
  (st = (-1, Sint16_max) ∧
   ∀ i c, 0 ≤ i < k → vget hCenters i = Some c →
          hexDist (hx, hy) c = Sint16_max) ∨
  (0 ≤ st.1 < k ∧ st.2 < Sint16_max ∧
   ∃ c, vget hCenters st.1 = Some c ∧ hexDist (hx, hy) c = st.2).

(** The hexes that a loop nest [for hx .. for hy ..] has visited when it
    is at [(hx, hy)]. *)
Definition cellDone (hx hy x y : Z) : Prop :=
  0 ≤ x ∧ 0 ≤ y < hMapHeight ∧ (x < hx ∨ x = hx ∧ y < hy).

(** The regions vector while [rAssignClosest] runs: the visited hexes hold
    the result of [rFindClosest]. *)
Definition assignState (hCenters : list Point) (hx hy : Z)
    (regions : list Z) : Prop :=
  Z.of_nat (length regions) = hMapSize ∧
  ∀ x y, cellDone hx hy x y →
         ∃ r, rFindClosest x y hCenters = Some r ∧
              vget regions (y * hMapWidth + x) = Some r.

(** The sums and counts while [hGetCenters] runs: per region the number
    of visited hexes of the region and the sums of their coordinates,
    within their bounds. *)
Definition sumsState (regions : list Z) (hx hy : Z)
    (st : list Point * list Z) : Prop :=
  Z.of_nat (length st.1) = numRegions ∧
  Z.of_nat (length st.2) = numRegions ∧
  ∀ r, 0 ≤ r < numRegions →
    ∃ hs n,
      vget st.1 r = Some hs ∧ vget st.2 r = Some n ∧
      0 ≤ n ≤ hx * hMapHeight + hy ∧
      0 ≤ hs.1 ≤ (hMapWidth - 1) * n ∧
      0 ≤ hs.2 ≤ (hMapHeight - 1) * n ∧
      (0 < n ↔
       ∃ x y, cellDone hx hy x y ∧
              vget regions (y * hMapWidth + x) = Some r).

(** The centers that [hGetCenters] returns: the invalid hex for a region
    without hexes, a hex of the map for the others. *)
Definition centersOf (regions : list Z) (hCenters : list Point) : Prop :=
  Z.of_nat (length hCenters) = numRegions ∧
  ∀ r, 0 ≤ r < numRegions →
    ∃ c, vget hCenters r = Some c ∧
         ((r ∉ regions) ∧ c = hInvalid ∨ r ∈ regions ∧ hexInBounds c).

(** One center per region, each the invalid hex or a hex of the map, and
    at least one of them a hex of the map. *)
Definition centersState (hCenters : list Point) : Prop :=
  Z.of_nat (length hCenters) = numRegions ∧
  Forall (λ c, c = hInvalid ∨ hexInBounds c) hCenters ∧
  Exists hexInBounds hCenters.

(** The state [(hCenters, regions)] of [rGenerate] after [k] relaxation
    rounds: centers as in [centersState], one entry per hex, and from the
    first round on a total assignment with the centers computed from it. *)
Definition roundState (k : Z) (st : list Point * list Z) : Prop :=
  centersState st.1 ∧
  Z.of_nat (length st.2) = hMapSize ∧
  (1 ≤ k → regionsTotal st.2 ∧ centersOf st.2 st.1).

(** Some hex of region [r1] among the hexes [0 .. i-1] has a neighbor in
    region [r2], or hex [i] is of region [r1] and has such a neighbor among
    the hexes [pre]. *)
Definition borderSeen (regions : list Z) (i : Z) (pre : list Z)
    (r1 r2 : Z) : Prop :=
  (∃ c av an,
     0 ≤ c < i ∧ aryNeighbors c = Some av ∧ an ∈ av ∧
     vget regions c = Some r1 ∧ vget regions an = Some r2) ∨
  (vget regions i = Some r1 ∧
   ∃ an, an ∈ pre ∧ vget regions an = Some r2).

(** The adjacency list while [regionNeighbors] runs: one duplicate-free
    list per region, holding the other regions seen across a border. *)
Definition adjState (regions : list Z) (i : Z) (pre : list Z)
    (ret : list (list Z)) : Prop :=
  Z.of_nat (length ret) = numRegions ∧
  ∀ r1 nbrs, vget ret r1 = Some nbrs →
    NoDup nbrs ∧
    ∀ r2, r2 ∈ nbrs ↔ r1 ≠ r2 ∧ borderSeen regions i pre r1 r2.

(** The terrain vector when the loop reaches region [k]: the regions below
    [k] have a terrain, the others still hold [-1]. *)
Definition terrainState (k : Z) (terrain : list Z) : Prop :=
  Z.of_nat (length terrain) = numRegions ∧
  (∀ n, 0 ≤ n < k → ∃ t, vget terrain n = Some t ∧ 0 ≤ t < numTerrains) ∧
  (∀ n, k ≤ n < numRegions → vget terrain n = Some (-1)).

(** ** Sample inputs *)

(** Seeds spread over the map. *)
Definition seedsSpread : list Z :=
  [3; 17; 40; 77; 100; 143; 12; 55; 60; 61; 62; 90; 91; 130; 131; 8; 9; 10].

(** All seeds on hex 0: every region but region 0 is empty from the first
    pass on. *)
Definition seedsSame : list Z := replicate 18 0.

(** The upper half of the map as region 0, the lower half as region 1. *)
Definition regionsHalves : list Z := replicate 72 0 ++ replicate 72 1.

(** Three regions that touch one another, the other regions isolated. *)
Definition adjTriangle : list (list Z) :=
  [[1; 2]; [0; 2]; [0; 1]] ++ replicate 15 [].

(** Region 0 lists region 1, region 1 lists nobody. *)
Definition adjOneWay : list (list Z) :=
  [1] :: replicate 17 [].

(** ** Further code of [random.cpp] and notions to describe it *)

(** The generation steps at the start of the drawing code of [SDL_main]:
    the regions, their adjacency list and their terrains. *)
Definition generateMap (aRands : list Z)
  : option (list Z * list (list Z) * list Z) :=
  regions ← rGenerate aRands;
  adjacencyList ← regionNeighbors regions;
  terrain ← assignTerrain adjacencyList;
  Some (regions, adjacencyList, terrain).

(** State of the loop of [rFindClosest] when it reaches center [k], with
    the distances compared: [st.2] is the least distance among the centers
    below [k], capped by the largest one, and [st.1] the first center at
    that distance, or [-1] when no center is below the cap. *)
Definition nearestState (hx hy : Z) (hCenters : list Point) (k : Z)
    (st : Z * Z) : Prop :=
  st.2 ≤ Sint16_max ∧
  (∀ i c, 0 ≤ i < k → vget hCenters i = Some c →
          st.2 ≤ hexDist (hx, hy) c) ∧
  (st.1 = -1 ∧ st.2 = Sint16_max ∨
   0 ≤ st.1 < k ∧ st.2 < Sint16_max ∧
   (∃ c, vget hCenters st.1 = Some c ∧ hexDist (hx, hy) c = st.2) ∧
   ∀ i c, 0 ≤ i < st.1 → vget hCenters i = Some c →
          st.2 < hexDist (hx, hy) c).

(** Region [r] is what [rFindClosest] must return at [(hx, hy)]: no center
    is nearer than the center of [r], and the centers of the regions below
    [r] are farther; or [r] is [-1] and every center is at the largest
    distance. *)
Definition nearestRegion (hx hy : Z) (hCenters : list Point) (r : Z) : Prop :=
  (r = -1 ∧
   ∀ i c, vget hCenters i = Some c → hexDist (hx, hy) c = Sint16_max) ∨
  (0 ≤ r < numRegions ∧
   ∃ c, vget hCenters r = Some c ∧
        hexDist (hx, hy) c < Sint16_max ∧
        (∀ i c', vget hCenters i = Some c' →
                 hexDist (hx, hy) c ≤ hexDist (hx, hy) c') ∧
        (∀ i c', 0 ≤ i < r → vget hCenters i = Some c' →
                 hexDist (hx, hy) c < hexDist (hx, hy) c')).

(** Three centers, two of them at the same distance from hex (2, 2), and
    fifteen invalid ones. *)
Definition centersTie : list Point :=
  [(9, 7); (2, 4); (2, 0)] ++ replicate 15 hInvalid.


(** The sum [f 0 + ... + f (n - 1)]. *)
Fixpoint sumTo (f : Z → Z) (n : nat) : Z :=
  match n with
  | O => 0
  | S n' => sumTo f n' + f (Z.of_nat n')
  end.

(** The sum of [f x y] over the hexes that a loop nest
    [for hx .. for hy ..] has visited when it is at [(hx, hy)]. *)
Definition sumCells (f : Z → Z → Z) (hx hy : Z) : Z :=
  sumTo (λ x, sumTo (f x) (Z.to_nat hMapHeight)) (Z.to_nat hx)
  + sumTo (f hx) (Z.to_nat hy).

(** The value [v x y] where hex [(hx, hy)] is of region [r], 0 elsewhere. *)
Definition ofRegion (regions : list Z) (r : Z) (v : Z → Z → Z) (x y : Z) : Z :=
  if bool_decide (vget regions (y * hMapWidth + x) = Some r) then v x y else 0.

(** Number of hexes of region [r], and the sums of their columns and of
    their rows. *)
Definition regionCount (regions : list Z) (r : Z) : Z :=
  sumCells (ofRegion regions r (λ _ _, 1)) hMapWidth 0.

Definition regionSumX (regions : list Z) (r : Z) : Z :=
  sumCells (ofRegion regions r (λ x _, x)) hMapWidth 0.

Definition regionSumY (regions : list Z) (r : Z) : Z :=
  sumCells (ofRegion regions r (λ _ y, y)) hMapWidth 0.

(** The center of mass of region [r] with the coordinates rounded towards
    zero, or the invalid hex for a region without hexes. *)
Definition centerOfMass (regions : list Z) (r : Z) : Point :=
  if regionCount regions r =? 0 then hInvalid
  else (regionSumX regions r `quot` regionCount regions r,
        regionSumY regions r `quot` regionCount regions r).

(** The sums and counts while [hGetCenters] runs, as exact values. *)
Definition sumsExact (regions : list Z) (hx hy : Z)
    (st : list Point * list Z) : Prop :=
  ∀ r, 0 ≤ r < numRegions →
    ∃ hs n,
      vget st.1 r = Some hs ∧ vget st.2 r = Some n ∧
      n = sumCells (ofRegion regions r (λ _ _, 1)) hx hy ∧
      hs.1 = sumCells (ofRegion regions r (λ x _, x)) hx hy ∧
      hs.2 = sumCells (ofRegion regions r (λ _ y, y)) hx hy.

(** A map of three regions: the left half, and the two quarters to the
    right. *)
Definition regionsThree : list Z :=
  mjoin (replicate 5 (replicate 8 0 ++ replicate 8 1))
  ++ mjoin (replicate 4 (replicate 8 0 ++ replicate 8 2)).


(** Column and row steps of the six directions, from a hex of column
    [hx]: north (0) and south (3) keep the column and move one row; the
    diagonal directions are as in [diagColumnStep] and [diagRowStep]. *)
Definition dirColumnStep (dir : Z) : Z :=
  if (dir =? 0) || (dir =? 3) then 0 else diagColumnStep dir.

Definition dirRowStep (dir hx : Z) : Z :=
  if dir =? 0 then -1 else if dir =? 3 then 1 else diagRowStep dir hx.

(** Second coordinate of a hex in cube coordinates (the column being the
    first), and the distance of cube coordinates: the largest of the
    differences along the three axes. *)
Definition cubeR (h : Point) : Z := h.2 - h.1 `quot` 2.

Definition cubeDist (h1 h2 : Point) : Z :=
  Z.max (Z.abs (h1.1 - h2.1))
    (Z.max (Z.abs (cubeR h1 - cubeR h2))
           (Z.abs ((h1.1 + cubeR h1) - (h2.1 + cubeR h2)))).


(** The direction of a step from hex [h] that leads nearer to hex [c]:
    north or south within the column of [c], else the diagonal towards
    the column of [c] that also goes towards its row. *)
Definition towardsDir (h c : Point) : Z :=
  if c.1 =? h.1 then (if c.2 <? h.2 then 0 else 3)
  else if c.1 >? h.1 then
    if h.1 `rem` 2 =? 0 then (if c.2 <? h.2 then 1 else 2)
    else (if c.2 >? h.2 then 2 else 1)
  else
    if h.1 `rem` 2 =? 0 then (if c.2 <? h.2 then 5 else 4)
    else (if c.2 >? h.2 then 4 else 5).

(** Hex [aPos] is linked to hex [aEnd] by steps of [aryGetNeighbor] over
    hexes that [regions] all gives to region [r]. *)
Inductive regionChain (regions : list Z) (r aEnd : Z) : Z → Prop :=
  | regionChain_end :
      vget regions aEnd = Some r → regionChain regions r aEnd aEnd
  | regionChain_step aPos dir aNext :
      vget regions aPos = Some r →
      aryGetNeighbor aPos dir = Some aNext →
      regionChain regions r aEnd aNext →
      regionChain regions r aEnd aPos.

(** * Proofs *)

Ltac Zify.zify_post_hook ::= Z.to_euclidean_division_equations.

(** ** Vectors *)

Section vectors.
Context {A : Type}.
Implicit Types (v : list A) (i j : Z) (x : A).

Lemma vget_Some v i x :
  vget v i = Some x ↔ 0 ≤ i ∧ v !! Z.to_nat i = Some x.
Proof.
  unfold vget. case_guard; simpl; split; try done; tauto.
Qed.

Lemma vget_is_Some v i :
  0 ≤ i < Z.of_nat (length v) → ∃ x, vget v i = Some x.
Proof.
  intros Hi. destruct (lookup_lt_is_Some_2 v (Z.to_nat i)) as [x Hx]; [lia|].
  exists x. apply vget_Some. split; [lia|done].
Qed.

Lemma vget_lt v i x : vget v i = Some x → 0 ≤ i < Z.of_nat (length v).
Proof.
  intros [? Hx]%vget_Some. apply lookup_lt_Some in Hx. lia.
Qed.

Lemma vset_Some v i x :
  0 ≤ i < Z.of_nat (length v) → vset v i x = Some (<[Z.to_nat i := x]> v).
Proof. intros Hi. unfold vset. by rewrite option_guard_True. Qed.

Lemma vget_insert_eq v i x :
  0 ≤ i < Z.of_nat (length v) → vget (<[Z.to_nat i := x]> v) i = Some x.
Proof.
  intros Hi. apply vget_Some. split; [lia|].
  apply list_lookup_insert_eq. lia.
Qed.

Lemma vget_insert_ne v i j x :
  0 ≤ i → 0 ≤ j → i ≠ j → vget (<[Z.to_nat i := x]> v) j = vget v j.
Proof.
  intros Hi Hj Hne. unfold vget. case_guard; simpl; [|done].
  apply list_lookup_insert_ne. lia.
Qed.

Lemma vget_replicate n x i :
  0 ≤ i < Z.of_nat n → vget (replicate n x) i = Some x.
Proof.
  intros Hi. apply vget_Some. split; [lia|].
  apply lookup_replicate_2. lia.
Qed.
End vectors.

(** ** Loops: an invariant rule that also gives termination with a result *)

Section loops.
Context {St : Type}.
Implicit Types (body : Z → St → option St) (Inv : Z → St → Prop).

Lemma forZ_inv Inv body n lo s0 :
  Inv lo s0 →
  (∀ i s, lo ≤ i < lo + Z.of_nat n → Inv i s →
          ∃ s', body i s = Some s' ∧ Inv (i + 1) s') →
  ∃ s', forZ n lo body s0 = Some s' ∧ Inv (lo + Z.of_nat n) s'.
Proof.
  revert lo s0. induction n as [|n IH]; intros lo s0 H0 Hstep; simpl.
  - exists s0. split; [done|]. by replace (lo + Z.of_nat 0) with lo by lia.
  - destruct (Hstep lo s0) as (s1 & -> & H1); [lia|done|]. simpl.
    destruct (IH (lo + 1) s1) as (s2 & -> & H2); [done| |].
    + intros i s Hi. apply Hstep. lia.
    + exists s2. split; [done|].
      by replace (lo + Z.of_nat (S n)) with (lo + 1 + Z.of_nat n) by lia.
Qed.

Lemma for_range_inv Inv body lo hi s0 :
  lo ≤ hi →
  Inv lo s0 →
  (∀ i s, lo ≤ i < hi → Inv i s →
          ∃ s', body i s = Some s' ∧ Inv (i + 1) s') →
  ∃ s', for_range lo hi body s0 = Some s' ∧ Inv hi s'.
Proof.
  intros Hle H0 Hstep. unfold for_range.
  destruct (forZ_inv Inv body (Z.to_nat (hi - lo)) lo s0) as (s' & ? & ?).
  - done.
  - intros i s Hi. apply Hstep. lia.
  - exists s'. split; [done|].
    by replace (lo + Z.of_nat (Z.to_nat (hi - lo))) with hi in * by lia.
Qed.

Lemma forZ_snoc body n lo s :
  forZ (S n) lo body s = s' ← forZ n lo body s; body (lo + Z.of_nat n) s'.
Proof.
  revert lo s. induction n as [|n IH]; intros lo s.
  - simpl. replace (lo + Z.of_nat 0) with lo by lia. by destruct (body lo s).
  - change (forZ (S (S n)) lo body s)
      with (s' ← body lo s; forZ (S n) (lo + 1) body s').
    change (forZ (S n) lo body s)
      with (s' ← body lo s; forZ n (lo + 1) body s').
    destruct (body lo s) as [s1|]; [|done].
    cbn [mbind option_bind]. rewrite IH. by replace (lo + 1 + Z.of_nat n) with (lo + Z.of_nat (S n)) by lia.
Qed.

Lemma for_range_snoc body lo hi s :
  lo ≤ hi →
  for_range lo (hi + 1) body s = s' ← for_range lo hi body s; body hi s'.
Proof.
  intros Hle. unfold for_range.
  replace (Z.to_nat (hi + 1 - lo)) with (S (Z.to_nat (hi - lo))) by lia.
  rewrite forZ_snoc. by replace (lo + Z.of_nat (Z.to_nat (hi - lo))) with hi by lia.
Qed.

Lemma for_range_nil body lo s : for_range lo lo body s = Some s.
Proof. unfold for_range. by replace (lo - lo) with 0 by lia. Qed.

Lemma for_each_inv {A} (Inv : list A → St → Prop)
    (body : A → St → option St) (l : list A) s0 :
  Inv [] s0 →
  (∀ pre x s, x ∈ l → Inv pre s →
              ∃ s', body x s = Some s' ∧ Inv (pre ++ [x]) s') →
  ∃ s', for_each l body s0 = Some s' ∧ Inv l s'.
Proof.
  intros H0 Hstep.
  cut (∀ suf pre s, pre ++ suf = l → Inv pre s →
         ∃ s', for_each suf body s = Some s' ∧ Inv l s').
  { intros Hcut. by apply (Hcut l [] s0). }
  induction suf as [|x suf IH]; intros pre s Hl Hpre; simpl.
  - exists s. split; [done|]. by rewrite app_nil_r in Hl; subst.
  - destruct (Hstep pre x s) as (s1 & -> & H1); [|done|].
    { subst l. rewrite elem_of_app, elem_of_cons. auto. }
    simpl. apply (IH (pre ++ [x])); [|done]. by rewrite <- app_assoc.
Qed.
End loops.

(** ** Grid coordinate math *)

Lemma hMapSize_eq : hMapSize = 144.
Proof. reflexivity. Qed.

Lemma toSint16_small z : -32768 ≤ z ≤ 32767 → toSint16 z = z.
Proof. unfold toSint16. lia. Qed.

Lemma toSint16_range z : -32768 ≤ toSint16 z ≤ 32767.
Proof. unfold toSint16. lia. Qed.

Lemma hexFromAry_valid a :
  0 ≤ a < 144 → hexFromAry a = (a `rem` 16, a `quot` 16).
Proof.
  intros Ha. unfold hexFromAry, hMapWidth.
  rewrite !toSint16_small by lia. done.
Qed.

(** The values asserted at the end of [SDL_main]. *)
Example hexDist_1_1_2_2 : hexDist (1, 1) (2, 2) = 1.
Proof. reflexivity. Qed.

Example hexDist_4_4_3_3 : hexDist (4, 4) (3, 3) = 1.
Proof. reflexivity. Qed.

Example hexDist_1_1_3_3 : hexDist (1, 1) (3, 3) = 3.
Proof. reflexivity. Qed.

Example hexDist_7_7_5_5 : hexDist (7, 7) (5, 5) = 3.
Proof. reflexivity. Qed.

(** C6. The conversions between a linear index and a hex coordinate are
    inverse to each other: an index below [hMapWidth * hMapHeight] goes to
    a coordinate within bounds and comes back unchanged, and a coordinate
    within bounds goes to such an index and comes back unchanged. *)
Theorem hexFromAry_aryFromHex_bijection (i : Z) (c : Point) :
  0 ≤ i < hMapWidth * hMapHeight →
  hexInBounds c →
  (hexInBounds (hexFromAry i) ∧ aryFromHex (hexFromAry i) = i) ∧
  (0 ≤ aryFromHex c < hMapWidth * hMapHeight ∧ hexFromAry (aryFromHex c) = c).
Proof.
  unfold hexInBounds, hMapWidth, hMapHeight. intros Hi [Hx Hy].
  rewrite hexFromAry_valid by lia.
  destruct c as [hx hy]. unfold aryFromHex, hMapWidth in *. simpl in *.
  repeat split; try lia.
  rewrite hexFromAry_valid by lia. f_equal; lia.
Qed.

Lemma hexFromAry_aryFromHex_bijection_witness :
  (hexInBounds (hexFromAry 37) ∧ aryFromHex (hexFromAry 37) = 37) ∧
  (0 ≤ aryFromHex (5, 2) < hMapWidth * hMapHeight ∧
   hexFromAry (aryFromHex (5, 2)) = (5, 2)).
Proof.
  apply (hexFromAry_aryFromHex_bijection 37 (5, 2)).
  - unfold hMapWidth, hMapHeight. lia.
  - unfold hexInBounds, hMapWidth, hMapHeight. simpl. lia.
Defined.

(** C4. [hexDist] is symmetric, and it is the largest [Sint16] as soon as
    one of its arguments is the invalid hex. *)
Theorem hexDist_symmetric_sentinel (a b : Point) :
  hexDist a b = hexDist b a ∧
  hexDist hInvalid b = Sint16_max ∧
  hexDist a hInvalid = Sint16_max.
Proof.
  split; [|split].
  - unfold hexDist. rewrite (orb_comm (bool_decide (b = hInvalid))).
    destruct (bool_decide (a = hInvalid) || bool_decide (b = hInvalid));
      [done|].
    replace (Z.abs (b.1 - a.1)) with (Z.abs (a.1 - b.1)) by lia.
    replace (Z.abs (b.2 - a.2)) with (Z.abs (a.2 - b.2)) by lia.
    rewrite !Z.gtb_ltb.
    destruct (a.2 <? b.2), (b.2 <? a.2), (a.1 `rem` 2 =? 0),
      (a.1 `rem` 2 =? 1), (b.1 `rem` 2 =? 0), (b.1 `rem` 2 =? 1);
      reflexivity.
  - unfold hexDist. by rewrite bool_decide_eq_true_2.
  - unfold hexDist. rewrite (bool_decide_eq_true_2 (hInvalid = hInvalid)) by done.
    by rewrite orb_true_r.
Qed.

(** Case analysis on the integer comparisons of a goal. *)
Ltac case_Zb :=
  repeat match goal with
    | |- context [Z.gtb ?a ?b] => rewrite (Z.gtb_ltb a b)
    | |- context [Z.geb ?a ?b] => rewrite (Z.geb_leb a b)
    | |- context [Z.eqb ?a ?b] => destruct (Z.eqb_spec a b)
    | |- context [Z.ltb ?a ?b] => destruct (Z.ltb_spec a b)
    | |- context [Z.leb ?a ?b] => destruct (Z.leb_spec a b)
    | _ => progress cbn [andb orb negb]
    end.

(** [aryGetNeighbor] direction by direction, the tests on [dir] decided. *)
Lemma aryGetNeighbor_dir aIndex dir :
  0 ≤ dir < 6 →
  aryGetNeighbor aIndex dir =
  Some
    (if dir =? 0 then if aIndex >=? 16 then aIndex - 16 else -1
     else if dir =? 1 then
       if aIndex `rem` 16 <? 15 then
         if aIndex `rem` 2 =? 0 then
           if aIndex >=? 16 then aIndex - 16 + 1 else -1
         else aIndex + 1
       else -1
     else if dir =? 2 then
       if aIndex `rem` 16 <? 15 then
         if aIndex `rem` 2 =? 0 then aIndex + 1
         else if aIndex <? 128 then aIndex + 16 + 1 else -1
       else -1
     else if dir =? 3 then if aIndex <? 128 then aIndex + 16 else -1
     else if dir =? 4 then
       if aIndex `rem` 16 >? 0 then
         if aIndex `rem` 2 =? 0 then aIndex - 1
         else if aIndex <? 128 then aIndex + 16 - 1 else -1
       else -1
     else
       if aIndex `rem` 16 >? 0 then
         if aIndex `rem` 2 =? 0 then
           if aIndex >=? 16 then aIndex - 16 - 1 else -1
         else aIndex - 1
       else -1).
Proof.
  intros Hd. unfold aryGetNeighbor. rewrite option_guard_True by done.
  cbn [mbind option_bind]. f_equal.
  assert (dir = 0 ∨ dir = 1 ∨ dir = 2 ∨ dir = 3 ∨ dir = 4 ∨ dir = 5)
    as [->|[->|[->|[->|[->| ->]]]]] by lia; reflexivity.
Qed.

(** The six cases of a direction. *)
Ltac case_dir dir :=
  assert (dir = 0 ∨ dir = 1 ∨ dir = 2 ∨ dir = 3 ∨ dir = 4 ∨ dir = 5)
    as [->|[->|[->|[->|[->| ->]]]]] by lia;
  cbn [Z.eqb Pos.eqb].

Lemma aryGetNeighbor_range aIndex dir aNeighbor :
  0 ≤ aIndex < hMapSize →
  aryGetNeighbor aIndex dir = Some aNeighbor →
  aNeighbor = -1 ∨ 0 ≤ aNeighbor < hMapSize.
Proof.
  rewrite hMapSize_eq. intros Ha Hn.
  assert (0 ≤ dir < 6) as Hd.
  { unfold aryGetNeighbor in Hn. case_guard; [done|discriminate]. }
  rewrite aryGetNeighbor_dir in Hn by done. injection Hn as <-.
  case_dir dir; case_Zb; lia.
Qed.

Lemma aryGetNeighbor_total aIndex dir :
  0 ≤ dir < 6 → ∃ aNeighbor, aryGetNeighbor aIndex dir = Some aNeighbor.
Proof.
  intros Hd. unfold aryGetNeighbor. rewrite option_guard_True by done.
  eexists. reflexivity.
Qed.

(** C9. For a valid tile and a diagonal direction (NE = 1, SE = 2, SW = 4,
    NW = 5), a neighbor that exists is a valid tile of the adjacent
    column: the next one for NE and SE, the previous one for SW and NW.
    Its row is fixed by the parity of the tile's column: from an even
    column, one row up for NE and NW and the same row for SE and SW; from
    an odd column, the same row for NE and NW and one row down for SE and
    SW. *)
Theorem aryGetNeighbor_diagonal (aIndex dir aNeighbor : Z) :
  0 ≤ aIndex < hMapSize →
  dir = 1 ∨ dir = 2 ∨ dir = 4 ∨ dir = 5 →
  aryGetNeighbor aIndex dir = Some aNeighbor →
  aNeighbor ≠ -1 →
  0 ≤ aNeighbor < hMapSize ∧
  (hexFromAry aNeighbor).1 = (hexFromAry aIndex).1 + diagColumnStep dir ∧
  (hexFromAry aNeighbor).2
  = (hexFromAry aIndex).2 + diagRowStep dir (hexFromAry aIndex).1.
Proof.
  intros Ha Hdir Hn Hne.
  destruct (aryGetNeighbor_range _ _ _ Ha Hn) as [?|Hr]; [done|].
  split; [done|]. rewrite hMapSize_eq in *.
  rewrite !hexFromAry_valid by lia. cbn [fst snd].
  rewrite aryGetNeighbor_dir in Hn by lia. injection Hn as Hn.
  revert Hn Hr. unfold diagColumnStep, diagRowStep.
  destruct Hdir as [->|[->|[->| ->]]]; cbn [Z.eqb Pos.eqb orb];
    case_Zb; intros; subst; lia.
Qed.

Lemma aryGetNeighbor_diagonal_witness :
  0 ≤ 34 < hMapSize ∧
  (hexFromAry 34).1 = (hexFromAry 17).1 + diagColumnStep 2 ∧
  (hexFromAry 34).2 = (hexFromAry 17).2 + diagRowStep 2 (hexFromAry 17).1.
Proof.
  apply (aryGetNeighbor_diagonal 17 2 34).
  - rewrite hMapSize_eq. lia.
  - auto.
  - reflexivity.
  - lia.
Defined.

(** The tiles that [aryNeighbors] returns are the existing neighbors in
    the six directions. *)
Lemma aryNeighbors_spec aIndex :
  ∃ av, aryNeighbors aIndex = Some av ∧
    ∀ a, a ∈ av ↔
         ∃ dir, 0 ≤ dir < 6 ∧ aryGetNeighbor aIndex dir = Some a ∧ a ≠ -1.
Proof.
  unfold aryNeighbors.
  destruct (for_range_inv
    (λ k (av : list Z), ∀ a, a ∈ av ↔
       ∃ dir, 0 ≤ dir < k ∧ aryGetNeighbor aIndex dir = Some a ∧ a ≠ -1)
    (λ dir av, aNeighbor ← aryGetNeighbor aIndex dir;
               Some (if aNeighbor =? -1 then av else av ++ [aNeighbor]))
    0 6 []) as (av & Hav & Hinv).
  - lia.
  - intros a. rewrite elem_of_nil. split; [done|]. intros (d & ? & _). lia.
  - intros d av Hd Hinv.
    destruct (aryGetNeighbor_total aIndex d) as [n Hn]; [lia|].
    rewrite Hn. cbn [mbind option_bind]. eexists. split; [done|].
    intros a. destruct (Z.eqb_spec n (-1)) as [->|Hne].
    + rewrite Hinv. split.
      * intros (d' & ? & ?). exists d'. split; [lia|done].
      * intros (d' & ? & Hd' & ?). exists d'. split; [|done].
        destruct (decide (d' = d)); [|lia]. subst. congruence.
    + rewrite elem_of_app, list_elem_of_singleton, Hinv. split.
      * intros [(d' & ? & ?)| ->].
        -- exists d'. split; [lia|done].
        -- exists d. split; [lia|done].
      * intros (d' & ? & Hd' & ?).
        destruct (decide (d' = d)) as [->|].
        -- right. congruence.
        -- left. exists d'. split; [lia|done].
  - exists av. done.
Qed.

Lemma aryNeighbors_range aIndex av a :
  0 ≤ aIndex < hMapSize →
  aryNeighbors aIndex = Some av → a ∈ av → 0 ≤ a < hMapSize.
Proof.
  intros Ha Hav Hin.
  destruct (aryNeighbors_spec aIndex) as (av' & Hav' & Hspec).
  rewrite Hav in Hav'. injection Hav' as <-.
  apply Hspec in Hin as (d & _ & Hd & Hne).
  destruct (aryGetNeighbor_range _ _ _ Ha Hd); [done|lia].
Qed.

(** Going back in the opposite direction leads to the tile one came
    from. *)
Lemma aryGetNeighbor_back c dir n :
  0 ≤ c < hMapSize →
  0 ≤ dir < 6 →
  aryGetNeighbor c dir = Some n →
  n ≠ -1 →
  aryGetNeighbor n (oppositeDir dir) = Some c.
Proof.
  intros Hc Hdir Hn Hne.
  assert (0 ≤ oppositeDir dir < 6) as Hopp by (unfold oppositeDir; lia).
  rewrite aryGetNeighbor_dir in Hn by done. injection Hn as Hn.
  rewrite aryGetNeighbor_dir by done. f_equal.
  rewrite hMapSize_eq in Hc. clear Hopp.
  case_dir dir;
    change (oppositeDir 0) with 3; change (oppositeDir 1) with 4;
    change (oppositeDir 2) with 5; change (oppositeDir 3) with 0;
    change (oppositeDir 4) with 1; change (oppositeDir 5) with 2;
    cbn [Z.eqb Pos.eqb];
    match goal with |- ?back = c => remember back as r eqn:Hr end;
    revert Hn; case_Zb; intros Hn; subst n; try done;
    subst r; case_Zb; lia.
Qed.

Lemma aryNeighbors_symmetric c n av av' :
  0 ≤ c < hMapSize →
  aryNeighbors c = Some av → n ∈ av →
  aryNeighbors n = Some av' → c ∈ av'.
Proof.
  intros Hc Hav Hin Hav'.
  destruct (aryNeighbors_spec c) as (av0 & Hav0 & Hspec).
  rewrite Hav in Hav0. injection Hav0 as <-.
  apply Hspec in Hin as (dir & Hdir & Hn & Hne).
  destruct (aryNeighbors_spec n) as (av1 & Hav1 & Hspec').
  rewrite Hav' in Hav1. injection Hav1 as <-.
  apply Hspec'. exists (oppositeDir dir).
  split; [unfold oppositeDir; lia|]. split; [|lia].
  by apply aryGetNeighbor_back.
Qed.

(** C5. The neighbor relation is symmetric: when a valid tile [c] has the
    neighbor [n] in direction [dir], then [n] has the neighbor [c] in the
    opposite direction, and [c] is among the tiles of [aryNeighbors n]. *)
Theorem aryGetNeighbor_symmetric (c dir n : Z) :
  0 ≤ c < hMapSize →
  0 ≤ dir < 6 →
  aryGetNeighbor c dir = Some n →
  n ≠ -1 →
  aryGetNeighbor n (oppositeDir dir) = Some c ∧
  ∃ av, aryNeighbors n = Some av ∧ c ∈ av.
Proof.
  intros Hc Hdir Hn Hne.
  pose proof (aryGetNeighbor_back c dir n Hc Hdir Hn Hne) as Hback.
  split; [done|].
  destruct (aryNeighbors_spec n) as (av & Hav & Hspec).
  exists av. split; [done|]. apply Hspec.
  exists (oppositeDir dir). split; [unfold oppositeDir; lia|].
  split; [done|lia].
Qed.

Lemma aryGetNeighbor_symmetric_witness :
  aryGetNeighbor 34 (oppositeDir 2) = Some 17 ∧
  ∃ av, aryNeighbors 34 = Some av ∧ 17 ∈ av.
Proof.
  apply (aryGetNeighbor_symmetric 17 2 34).
  - rewrite hMapSize_eq. lia.
  - lia.
  - reflexivity.
  - lia.
Defined.

(** ** Terrain colourer *)

Lemma for_range_split {St} (body : Z → St → option St) lo mid hi s :
  lo ≤ mid ≤ hi →
  for_range lo hi body s = s' ← for_range lo mid body s; for_range mid hi body s'.
Proof.
  intros [Hlo Hhi].
  replace hi with (mid + Z.of_nat (Z.to_nat (hi - mid))) by lia.
  generalize (Z.to_nat (hi - mid)) as n. induction n as [|n IH].
  - replace (mid + Z.of_nat 0) with mid by lia.
    destruct (for_range lo mid body s) as [s1|]; simpl; [|done].
    by rewrite for_range_nil.
  - replace (mid + Z.of_nat (S n)) with (mid + Z.of_nat n + 1) by lia.
    rewrite (for_range_snoc body lo) by lia. rewrite IH.
    destruct (for_range lo mid body s) as [s1|]; simpl; [|done].
    by rewrite for_range_snoc by lia.
Qed.

Lemma bitset_set_testbit bits t bits' k :
  bitset_set bits t = Some bits' →
  0 ≤ t < numTerrains ∧ Z.testbit bits' k = Z.testbit bits k || (t =? k).
Proof.
  unfold bitset_set. case_guard; [|discriminate]. intros [= <-].
  split; [done|]. rewrite Z.lor_spec, Z.shiftl_1_l.
  by rewrite Z.pow2_bits_eqb by lia.
Qed.

Lemma bitset_all_spec bits (P : Z → Prop) :
  (∀ k, Z.testbit bits k = true ↔ 0 ≤ k < numTerrains ∧ P k) →
  bitset_all bits = true ↔ ∀ k, 0 ≤ k < numTerrains → P k.
Proof.
  intros Hbits. unfold bitset_all. rewrite Z.eqb_eq. split.
  - intros -> k Hk. apply Hbits. apply Z.ones_spec_low. done.
  - intros Hall. apply Z.bits_inj'. intros k Hk.
    destruct (decide (k < numTerrains)) as [Hlt|Hge].
    + rewrite Z.ones_spec_low by lia. apply Hbits. split; [lia|].
      apply Hall. lia.
    + rewrite Z.ones_spec_high by (unfold numTerrains in *; lia).
      destruct (Z.testbit bits k) eqn:Hb; [|done].
      apply Hbits in Hb. lia.
Qed.

Lemma firstUnassigned_Some n t bits t' :
  firstUnassigned n t bits = Some t' →
  t ≤ t' < t + Z.of_nat n ∧ Z.testbit bits t' = false ∧
  ∀ k, t ≤ k < t' → Z.testbit bits k = true.
Proof.
  revert t. induction n as [|n IH]; intros t; simpl; [done|].
  unfold bitset_test. destruct (Z.testbit bits t) eqn:Hb; simpl.
  - intros (? & ? & Hlow)%IH. repeat split; [lia|lia|done|].
    intros k Hk. destruct (decide (k = t)) as [->|]; [done|].
    apply Hlow. lia.
  - intros [= <-]. repeat split; [lia|lia|done|]. intros k Hk. lia.
Qed.

Lemma firstUnassigned_None n t bits :
  firstUnassigned n t bits = None →
  ∀ k, t ≤ k < t + Z.of_nat n → Z.testbit bits k = true.
Proof.
  revert t. induction n as [|n IH]; intros t; simpl.
  - intros _ k Hk. lia.
  - unfold bitset_test. destruct (Z.testbit bits t) eqn:Hb; simpl; [|done].
    intros Hnone k Hk. destruct (decide (k = t)) as [->|]; [done|].
    apply (IH (t + 1)); [done|lia].
Qed.

Lemma terrainState_range k terrain n v :
  terrainState k terrain → vget terrain n = Some v → -1 ≤ v < numTerrains.
Proof.
  intros (Hlen & Hlow & Hhigh) Hv. pose proof (vget_lt _ _ _ Hv) as Hn.
  rewrite Hlen in Hn. destruct (decide (n < k)) as [Hlt|Hge].
  - destruct (Hlow n) as (t & Ht & ?); [lia|]. rewrite Hv in Ht.
    injection Ht as ->. lia.
  - rewrite Hhigh in Hv by lia. injection Hv as <-. unfold numTerrains. lia.
Qed.

Lemma adjOverRegions_elem adj r nbrs rNeighbor :
  adjOverRegions adj →
  vget adj r = Some nbrs → rNeighbor ∈ nbrs → 0 ≤ rNeighbor < numRegions.
Proof.
  intros [_ Hall] [_ Hnbrs]%vget_Some Hin.
  rewrite Forall_lookup in Hall. specialize (Hall _ _ Hnbrs).
  rewrite Forall_forall in Hall. auto.
Qed.

(** The bits that the neighbor loop sets are the terrains in use. *)
Lemma assignedTerrainsOf_spec k terrain nbrs :
  terrainState k terrain →
  (∀ n, n ∈ nbrs → 0 ≤ n < numRegions) →
  ∃ bits, assignedTerrainsOf terrain nbrs = Some bits ∧
    ∀ t, Z.testbit bits t = true ↔
         0 ≤ t < numTerrains ∧ terrainUsed terrain nbrs t.
Proof.
  intros Hst Hnbrs. unfold assignedTerrainsOf.
  apply (for_each_inv
    (λ pre bits, ∀ t, Z.testbit bits t = true ↔
                      0 ≤ t < numTerrains ∧ terrainUsed terrain pre t)).
  - intros t. rewrite Z.bits_0. split; [done|].
    intros (_ & n & Hin & _). by apply elem_of_nil in Hin.
  - intros pre n bits Hin Hinv.
    rewrite option_guard_True by auto. cbn [mbind option_bind].
    destruct (vget_is_Some terrain n) as [v Hv].
    { destruct Hst as (-> & _). auto. }
    rewrite Hv. cbn [mbind option_bind].
    pose proof (terrainState_range _ _ _ _ Hst Hv) as Hrange.
    assert (∀ t, terrainUsed terrain (pre ++ [n]) t ↔
                 terrainUsed terrain pre t ∨ v = t) as Hused.
    { intros t. unfold terrainUsed. split.
      - intros (m & [Hm| ->%list_elem_of_singleton]%elem_of_app & Ht).
        + left. eauto.
        + right. congruence.
      - intros [(m & Hm & Ht)| <-].
        + exists m. rewrite elem_of_app. auto.
        + exists n. rewrite elem_of_app, list_elem_of_singleton. auto. }
    rewrite Z.gtb_ltb. destruct (Z.ltb_spec (-1) v) as [Hpos|Hneg].
    + destruct (bitset_set bits v) as [bits'|] eqn:Hset.
      2:{ unfold bitset_set in Hset. rewrite option_guard_True in Hset by lia.
          discriminate. }
      exists bits'. split; [done|]. intros t.
      destruct (bitset_set_testbit _ _ _ t Hset) as [_ ->].
      rewrite orb_true_iff, Hinv, Hused, Z.eqb_eq. split.
      * intros [[? ?]| <-]; [tauto|]. split; [lia|by right].
      * intros [? [?| ?]]; [left|right]; done.
    + exists bits. split; [done|]. intros t. rewrite Hinv, Hused. split.
      * tauto.
      * intros [? [?| ?]]; [done|lia].
Qed.

(** One round of the loop of [assignTerrain]: region [r] gets the terrain
    of the greedy choice and no other entry changes. *)
Lemma assignTerrainStep_spec adj r terrain :
  adjOverRegions adj →
  0 ≤ r < numRegions →
  terrainState r terrain →
  ∃ nbrs t,
    vget adj r = Some nbrs ∧
    assignTerrainStep adj r terrain = Some (<[Z.to_nat r := t]> terrain) ∧
    greedyChoice terrain nbrs t.
Proof.
  intros Hadj Hr Hst. unfold assignTerrainStep.
  destruct (vget_is_Some adj r) as [nbrs Hnbrs].
  { destruct Hadj as [-> _]. done. }
  exists nbrs. rewrite Hnbrs. cbn [mbind option_bind].
  destruct (assignedTerrainsOf_spec r terrain nbrs Hst) as (bits & -> & Hbits).
  { intros n Hn. by apply (adjOverRegions_elem adj r nbrs n). }
  cbn [mbind option_bind].
  pose proof (bitset_all_spec bits _ Hbits) as Hall.
  assert (0 ≤ r < Z.of_nat (length terrain)) as Hrlen.
  { destruct Hst as (-> & _). done. }
  destruct (bitset_all bits) eqn:Hb; cbn [negb].
  - exists 0. rewrite vset_Some by done.
    split; [done|]. split; [done|]. right. split; [done|]. by apply Hall.
  - destruct (firstUnassigned (Z.to_nat numTerrains) 0 bits) as [t|] eqn:Hfirst.
    + apply firstUnassigned_Some in Hfirst as (Ht & Hclear & Hlow).
      exists t. rewrite vset_Some by done.
      assert (0 ≤ t < numTerrains) as Ht' by (unfold numTerrains in *; lia).
      split; [done|]. split; [done|]. left. split; [done|]. split.
      * intros Hused. assert (Z.testbit bits t = true) as Hset.
        { apply Hbits. done. }
        congruence.
      * intros t' Ht''. apply Hbits, Hlow. lia.
    + pose proof (firstUnassigned_None _ _ _ Hfirst) as Hset.
      assert (false = true) as Hcontra; [|done].
      apply Hall. intros t Ht. apply Hbits, Hset.
      unfold numTerrains in *. lia.
Qed.

Lemma greedyChoice_range terrain nbrs t :
  greedyChoice terrain nbrs t → 0 ≤ t < numTerrains.
Proof. unfold greedyChoice, numTerrains. intros [(? & _)|(-> & _)]; lia. Qed.

Lemma terrainState_init : terrainState 0 terrainInit.
Proof.
  unfold terrainState, terrainInit, numRegions. rewrite length_replicate.
  split; [lia|]. split; [intros n Hn; lia|]. intros n Hn.
  apply vget_replicate. lia.
Qed.

Lemma terrainState_step k terrain t :
  0 ≤ k < numRegions → 0 ≤ t < numTerrains →
  terrainState k terrain →
  terrainState (k + 1) (<[Z.to_nat k := t]> terrain).
Proof.
  intros Hk Ht (Hlen & Hlow & Hhigh). unfold terrainState.
  rewrite length_insert.
  split; [done|]. split.
  - intros n Hn. destruct (decide (n = k)) as [->|Hne].
    + exists t. rewrite vget_insert_eq by lia. done.
    + rewrite vget_insert_ne by lia. apply Hlow. lia.
  - intros n Hn. rewrite vget_insert_ne by lia. apply Hhigh. lia.
Qed.

(** The loop of [assignTerrain] from region [lo] to region [hi]: it
    returns, and leaves the entries below [lo] as they were. *)
Lemma assignTerrain_loop adj lo hi terrain :
  adjOverRegions adj →
  0 ≤ lo ≤ hi → hi ≤ numRegions →
  terrainState lo terrain →
  ∃ terrain',
    for_range lo hi (assignTerrainStep adj) terrain = Some terrain' ∧
    terrainState hi terrain' ∧
    ∀ n, n < lo → vget terrain' n = vget terrain n.
Proof.
  intros Hadj Hlo Hhi Hst.
  apply (for_range_inv
    (λ k terrain', terrainState k terrain' ∧
                   ∀ n, n < lo → vget terrain' n = vget terrain n)).
  - lia.
  - done.
  - intros k tk Hk [Hstk Hsame].
    destruct (assignTerrainStep_spec adj k tk) as (nbrs & t & _ & -> & Ht);
      [done|lia|done|].
    apply greedyChoice_range in Ht. eexists. split; [done|]. split.
    + apply terrainState_step; [lia|done|done].
    + intros n Hn. rewrite <- Hsame by done. unfold vget.
      case_guard; [|done]. cbn [mbind option_bind].
      apply list_lookup_insert_ne. lia.
Qed.

(** C10. On an adjacency list over [numRegions] regions [assignTerrain]
    returns a vector with one entry per region, and every entry is a
    terrain number of [0, numTerrains): the initial [-1] is gone. *)
Theorem assignTerrain_total (adj : list (list Z)) :
  adjOverRegions adj →
  ∃ terrain,
    assignTerrain adj = Some terrain ∧
    Z.of_nat (length terrain) = numRegions ∧
    (∀ r, 0 ≤ r < numRegions →
          ∃ t, vget terrain r = Some t ∧ 0 ≤ t < numTerrains) ∧
    -1 ∉ terrain.
Proof.
  intros Hadj.
  destruct (assignTerrain_loop adj 0 numRegions terrainInit)
    as (terrain & Hrun & (Hlen & Hlow & _) & _);
    [done|unfold numRegions; lia|lia|apply terrainState_init|].
  exists terrain. split; [done|]. split; [done|]. split; [done|].
  intros (i & Hi)%list_elem_of_lookup.
  destruct (Hlow (Z.of_nat i)) as (t & Ht & Hrange).
  { apply lookup_lt_Some in Hi. lia. }
  apply vget_Some in Ht as [_ Ht]. rewrite Nat2Z.id in Ht.
  rewrite Hi in Ht. injection Ht as <-. lia.
Qed.

Lemma adjOverRegions_adjOneWay : adjOverRegions adjOneWay.
Proof.
  split; [reflexivity|]. unfold adjOneWay, numRegions. simpl.
  repeat (apply Forall_cons; split); try apply Forall_nil; lia.
Qed.

Lemma assignTerrain_total_witness :
  ∃ terrain,
    assignTerrain adjTriangle = Some terrain ∧
    Z.of_nat (length terrain) = numRegions ∧
    (∀ r, 0 ≤ r < numRegions →
          ∃ t, vget terrain r = Some t ∧ 0 ≤ t < numTerrains) ∧
    -1 ∉ terrain.
Proof.
  apply (assignTerrain_total adjTriangle).
  split; [reflexivity|]. unfold adjTriangle, numRegions. simpl.
  repeat (apply Forall_cons; split); try apply Forall_nil; lia.
Defined.

(** What happens at region [r]: the vector [before] the loop holds when
    it reaches [r], the terrain [t] it gives to [r], and how both show in
    the result. *)
Lemma assignTerrain_at adj r :
  adjOverRegions adj →
  0 ≤ r < numRegions →
  ∃ before terrain nbrs t,
    terrainBefore adj r = Some before ∧
    terrainState r before ∧
    vget adj r = Some nbrs ∧
    assignTerrainStep adj r before = Some (<[Z.to_nat r := t]> before) ∧
    greedyChoice before nbrs t ∧
    assignTerrain adj = Some terrain ∧
    vget terrain r = Some t ∧
    ∀ n, 0 ≤ n < r → vget terrain n = vget before n.
Proof.
  intros Hadj Hr.
  destruct (assignTerrain_loop adj 0 r terrainInit)
    as (before & Hbefore & Hst & _);
    [done|lia|lia|apply terrainState_init|].
  destruct (assignTerrainStep_spec adj r before)
    as (nbrs & t & Hnbrs & Hstep & Hgreedy); [done..|].
  pose proof (greedyChoice_range _ _ _ Hgreedy) as Ht.
  pose proof (terrainState_step r before t Hr Ht Hst) as Hst'.
  destruct (assignTerrain_loop adj (r + 1) numRegions (<[Z.to_nat r := t]> before))
    as (terrain & Hrest & _ & Hsame); [done|lia|lia|done|].
  exists before, terrain, nbrs, t.
  assert (0 ≤ r < Z.of_nat (length before)) as Hrlen.
  { destruct Hst as (-> & _). done. }
  repeat (split; [done|]). split; [|split].
  - unfold assignTerrain.
    rewrite (for_range_split _ 0 (r + 1) numRegions) by lia.
    rewrite for_range_snoc by lia. fold terrainInit.
    unfold terrainBefore in Hbefore. rewrite Hbefore. cbn [mbind option_bind].
    rewrite Hstep. done.
  - rewrite Hsame by lia. by apply vget_insert_eq.
  - intros n Hn. rewrite Hsame by lia. apply vget_insert_ne; lia.
Qed.

(** C3. [assignTerrain] reaches region [r] after the regions [0 .. r-1]
    and before the others: at that moment the regions below [r] hold the
    terrain they keep in the result and the others hold none, so the
    neighbors of [r] that have a terrain are its neighbors of lower number.
    The terrain [t] given to [r] is the lowest one that no such neighbor
    has: whenever a terrain [t'] is free, [t] is free and [t ≤ t'].  (When
    the neighbors have all the terrains there is no such terrain, and [r]
    gets terrain 0.) *)
Theorem assignTerrain_ascending_greedy (adj : list (list Z)) (r : Z) :
  adjOverRegions adj →
  0 ≤ r < numRegions →
  ∃ before terrain nbrs t,
    terrainBefore adj r = Some before ∧
    terrainBefore adj (r + 1) = Some (<[Z.to_nat r := t]> before) ∧
    assignTerrain adj = Some terrain ∧
    vget adj r = Some nbrs ∧
    vget terrain r = Some t ∧
    (∀ n, r ≤ n < numRegions → vget before n = Some (-1)) ∧
    (∀ n, 0 ≤ n < r →
          ∃ tn, vget before n = Some tn ∧ 0 ≤ tn < numTerrains ∧
                vget terrain n = Some tn) ∧
    (∀ n tn, n ∈ nbrs →
             vget before n = Some tn ∧ 0 ≤ tn ↔
             n < r ∧ vget terrain n = Some tn) ∧
    (∀ t', 0 ≤ t' < numTerrains → ¬ terrainUsed before nbrs t' →
           ¬ terrainUsed before nbrs t ∧ 0 ≤ t ≤ t') ∧
    ((∀ t', 0 ≤ t' < numTerrains → terrainUsed before nbrs t') → t = 0).
Proof.
  intros Hadj Hr.
  destruct (assignTerrain_at adj r Hadj Hr)
    as (before & terrain & nbrs & t & Hbefore & Hst & Hnbrs & Hstep &
        Hgreedy & Hrun & Ht & Hsame).
  exists before, terrain, nbrs, t.
  destruct Hst as (Hlen & Hlow & Hhigh).
  assert (∀ n, 0 ≤ n < r →
            ∃ tn, vget before n = Some tn ∧ 0 ≤ tn < numTerrains ∧
                  vget terrain n = Some tn) as Hbelow.
  { intros n Hn. destruct (Hlow n Hn) as (tn & Htn & ?).
    exists tn. rewrite Hsame by done. done. }
  split; [done|]. split.
  { unfold terrainBefore in *. rewrite for_range_snoc by lia.
    rewrite Hbefore. done. }
  repeat (split; [done|]). split.
  - intros n tn Hin.
    pose proof (adjOverRegions_elem adj r nbrs n Hadj Hnbrs Hin) as Hn.
    destruct (decide (n < r)) as [Hlt|Hge].
    + destruct (Hbelow n) as (tn' & Hb & ? & Hf); [lia|].
      rewrite Hb, Hf. split.
      * intros [[= <-] _]. done.
      * intros [_ [= <-]]. split; [done|lia].
    + rewrite Hhigh by lia. split.
      * intros [[= <-] ?]. lia.
      * intros [? _]. lia.
  - split.
    + intros t' Ht' Hfree.
      destruct Hgreedy as [(Hrange & Hunused & Hleast)|[_ Hfull]].
      * split; [done|]. split; [lia|].
        destruct (decide (t ≤ t')) as [|Hgt]; [done|].
        destruct Hfree. apply Hleast. lia.
      * destruct Hfree. by apply Hfull.
    + intros Hfull. destruct Hgreedy as [(Hrange & Hunused & _)|[-> _]]; [|done].
      destruct Hunused. by apply Hfull.
Qed.

Lemma assignTerrain_ascending_greedy_witness :
  ∃ before terrain nbrs t,
    terrainBefore adjTriangle 2 = Some before ∧
    terrainBefore adjTriangle (2 + 1) = Some (<[Z.to_nat 2 := t]> before) ∧
    assignTerrain adjTriangle = Some terrain ∧
    vget adjTriangle 2 = Some nbrs ∧
    vget terrain 2 = Some t ∧
    (∀ n, 2 ≤ n < numRegions → vget before n = Some (-1)) ∧
    (∀ n, 0 ≤ n < 2 →
          ∃ tn, vget before n = Some tn ∧ 0 ≤ tn < numTerrains ∧
                vget terrain n = Some tn) ∧
    (∀ n tn, n ∈ nbrs →
             vget before n = Some tn ∧ 0 ≤ tn ↔
             n < 2 ∧ vget terrain n = Some tn) ∧
    (∀ t', 0 ≤ t' < numTerrains → ¬ terrainUsed before nbrs t' →
           ¬ terrainUsed before nbrs t ∧ 0 ≤ t ≤ t') ∧
    ((∀ t', 0 ≤ t' < numTerrains → terrainUsed before nbrs t') → t = 0).
Proof.
  apply (assignTerrain_ascending_greedy adjTriangle 2).
  - split; [reflexivity|]. unfold adjTriangle, numRegions. simpl.
    repeat (apply Forall_cons; split); try apply Forall_nil; lia.
  - unfold numRegions. lia.
Defined.

Example assignTerrain_adjTriangle :
  assignTerrain adjTriangle = Some ([0; 1; 2] ++ replicate 15 0).
Proof. reflexivity. Qed.

(** The later of two regions, when it lists the earlier one, gets another
    terrain or finds all terrains in use. *)
Lemma assignTerrain_later adj lo hi :
  adjOverRegions adj →
  lo < hi →
  adjacentRegions adj hi lo →
  ∃ terrain tlo thi,
    assignTerrain adj = Some terrain ∧
    vget terrain lo = Some tlo ∧
    vget terrain hi = Some thi ∧
    (tlo ≠ thi ∨ allTerrainsUsedAt adj hi ∧ thi = 0).
Proof.
  intros Hadj Hlt (nbrs & Hnbrs & Hin).
  pose proof (adjOverRegions_elem adj hi nbrs lo Hadj Hnbrs Hin) as Hlo.
  assert (0 ≤ hi < numRegions) as Hhi.
  { apply vget_lt in Hnbrs. destruct Hadj as [<- _]. done. }
  destruct (assignTerrain_at adj hi Hadj Hhi)
    as (before & terrain & nbrs' & thi & Hbefore & Hst & Hnbrs' & _ &
        Hgreedy & Hrun & Hthi & Hsame).
  rewrite Hnbrs in Hnbrs'. injection Hnbrs' as <-.
  destruct Hst as (_ & Hlow & _).
  destruct (Hlow lo) as (tlo & Htlo & Hrange); [lia|].
  exists terrain, tlo, thi. split; [done|]. split.
  { rewrite Hsame by lia. done. }
  split; [done|].
  assert (terrainUsed before nbrs tlo) as Hused by (exists lo; done).
  destruct Hgreedy as [(_ & Hfree & _)|[-> Hfull]].
  - left. intros ->. done.
  - right. split; [|done]. exists before, nbrs. done.
Qed.

(** C2. On an adjacency list over [numRegions] regions, symmetric as
    sharing a border is, any two distinct adjacent regions get different
    terrains, unless every terrain was in use among the neighbors of the
    later-processed one at the moment it was assigned; it then has
    terrain 0. *)
Theorem assignTerrain_adjacent_differ (adj : list (list Z)) (r1 r2 : Z) :
  adjOverRegions adj →
  adjSymmetric adj →
  r1 ≠ r2 →
  adjacentRegions adj r1 r2 →
  ∃ terrain t1 t2,
    assignTerrain adj = Some terrain ∧
    vget terrain r1 = Some t1 ∧
    vget terrain r2 = Some t2 ∧
    (t1 ≠ t2 ∨
     allTerrainsUsedAt adj (Z.max r1 r2) ∧
     vget terrain (Z.max r1 r2) = Some 0).
Proof.
  intros Hadj Hsym Hne Hadj12.
  assert (adjacentRegions adj (Z.max r1 r2) (Z.min r1 r2)) as Hlater.
  { destruct (Z.lt_ge_cases r1 r2).
    - rewrite Z.max_r, Z.min_l by lia. by apply Hsym.
    - rewrite Z.max_l, Z.min_r by lia. done. }
  destruct (assignTerrain_later adj (Z.min r1 r2) (Z.max r1 r2))
    as (terrain & tlo & thi & Hrun & Hlo & Hhi & Hdiff); [done|lia|done|].
  assert (allTerrainsUsedAt adj (Z.max r1 r2) ∧ thi = 0 →
          allTerrainsUsedAt adj (Z.max r1 r2) ∧
          vget terrain (Z.max r1 r2) = Some 0) as Hfull.
  { intros [? ->]. done. }
  destruct (Z.lt_ge_cases r1 r2) as [Hlt|Hge].
  - rewrite Z.max_r, Z.min_l in * by lia.
    exists terrain, tlo, thi. tauto.
  - rewrite Z.max_l, Z.min_r in * by lia.
    exists terrain, thi, tlo. repeat (split; [done|]).
    destruct Hdiff as [?|?]; [left; congruence|right; tauto].
Qed.

Lemma adjOverRegions_adjTriangle : adjOverRegions adjTriangle.
Proof.
  split; [reflexivity|]. unfold adjTriangle, numRegions. simpl.
  repeat (apply Forall_cons; split); try apply Forall_nil; lia.
Qed.

Lemma adjSymmetric_adjTriangle : adjSymmetric adjTriangle.
Proof.
  assert (∀ r nbrs, vget adjTriangle r = Some nbrs →
            r = 0 ∧ nbrs = [1; 2] ∨ r = 1 ∧ nbrs = [0; 2] ∨
            r = 2 ∧ nbrs = [0; 1] ∨ nbrs = []) as Hlists.
  { intros r nbrs Hr. pose proof (vget_lt _ _ _ Hr) as Hlt.
    apply vget_Some in Hr as [_ Hr].
    destruct (Z.to_nat r) as [|[|[|k]]] eqn:Hk; simpl in Hr.
    - left. split; [lia|congruence].
    - right. left. split; [lia|congruence].
    - right. right. left. split; [lia|congruence].
    - right. right. right.
      apply list_elem_of_lookup_2 in Hr.
      repeat (apply elem_of_cons in Hr as [Hr|Hr]; [done|]).
      by apply elem_of_nil in Hr. }
  intros r1 r2 (nbrs & Hnbrs & Hin).
  destruct (Hlists r1 nbrs Hnbrs) as [[-> ->]|[[-> ->]|[[-> ->]| ->]]];
    [| | |by apply elem_of_nil in Hin];
    repeat (apply elem_of_cons in Hin as [->|Hin]);
    try (by apply elem_of_nil in Hin);
    (eexists; split; [reflexivity|]);
    repeat first [apply list_elem_of_here | apply list_elem_of_further].
Qed.

Lemma assignTerrain_adjacent_differ_witness :
  ∃ terrain t1 t2,
    assignTerrain adjTriangle = Some terrain ∧
    vget terrain 0 = Some t1 ∧
    vget terrain 2 = Some t2 ∧
    (t1 ≠ t2 ∨
     allTerrainsUsedAt adjTriangle (Z.max 0 2) ∧
     vget terrain (Z.max 0 2) = Some 0).
Proof.
  apply (assignTerrain_adjacent_differ adjTriangle 0 2).
  - apply adjOverRegions_adjTriangle.
  - apply adjSymmetric_adjTriangle.
  - lia.
  - exists [1; 2]. split; [reflexivity|].
    apply list_elem_of_further, list_elem_of_here.
Defined.

(** Symmetry is what the property rests on, [assignTerrain] reading only
    the list of the region it assigns: on a one-directional list, region 0
    listing region 1 and region 1 nobody, both get terrain 0. *)
Lemma coloringValid_fails_one_way :
  adjOverRegions adjOneWay ∧
  assignTerrain adjOneWay = Some (replicate 18 0) ∧
  ¬ coloringValid adjOneWay.
Proof.
  split; [apply adjOverRegions_adjOneWay|]. split; [reflexivity|].
  intros Hvalid.
  destruct (Hvalid (replicate 18 0) 0 1 0 0) as [?|Hfull]; try done.
  - exists [1]. split; [reflexivity|]. apply elem_of_cons. by left.
  - destruct Hfull as (before & nbrs & _ & Hnbrs & Hused).
    injection Hnbrs as <-.
    destruct (Hused 0) as (n & Hin & _); [unfold numTerrains; lia|].
    by apply elem_of_nil in Hin.
Qed.

(** ** Adjacency builder *)

Lemma regionsTotal_get regions i :
  regionsTotal regions → 0 ≤ i < hMapSize →
  ∃ r, vget regions i = Some r ∧ 0 ≤ r < numRegions.
Proof.
  intros [Hlen Hall] Hi. destruct (vget_is_Some regions i) as [r Hr].
  { by rewrite Hlen. }
  exists r. split; [done|]. apply vget_Some in Hr as [_ Hr].
  rewrite Forall_lookup in Hall. by apply (Hall _ _ Hr).
Qed.

Lemma regionsTotal_range regions i r :
  regionsTotal regions → vget regions i = Some r → 0 ≤ r < numRegions.
Proof.
  intros [_ Hall] [_ Hr]%vget_Some.
  rewrite Forall_lookup in Hall. by apply (Hall _ _ Hr).
Qed.

Lemma borderSeen_snoc regions i pre an r1 r2 :
  borderSeen regions i (pre ++ [an]) r1 r2 ↔
  borderSeen regions i pre r1 r2 ∨
  (vget regions i = Some r1 ∧ vget regions an = Some r2).
Proof.
  unfold borderSeen. split.
  - intros [?|[Hi (an' & [Hin| ->%list_elem_of_singleton]%elem_of_app & Han)]].
    + left. by left.
    + left. right. eauto.
    + right. done.
  - intros [[?|[Hi (an' & Hin & Han)]]|[Hi Han]].
    + by left.
    + right. split; [done|]. exists an'. rewrite elem_of_app. auto.
    + right. split; [done|]. exists an.
      rewrite elem_of_app, list_elem_of_singleton. auto.
Qed.

Lemma borderSeen_next regions i av r1 r2 :
  aryNeighbors i = Some av →
  borderSeen regions (i + 1) [] r1 r2 ↔ borderSeen regions i av r1 r2.
Proof.
  intros Hav. unfold borderSeen. split.
  - intros [(c & av' & an & Hc & Hav' & Hin & Hr1 & Hr2)|[_ (an & Hin & _)]].
    + destruct (decide (c = i)) as [->|Hne].
      * right. rewrite Hav in Hav'. injection Hav' as <-. eauto.
      * left. exists c, av', an. split; [lia|done].
    + by apply elem_of_nil in Hin.
  - intros [(c & av' & an & Hc & Hrest)|[Hr1 (an & Hin & Hr2)]].
    + left. exists c, av', an. split; [lia|done].
    + left. exists i, av, an. pose proof (vget_lt _ _ _ Hr1).
      split; [lia|done].
Qed.

(** One round of the inner loop of [regionNeighbors]. *)
Lemma regionNeighborsHex_spec regions i reg pre an ret :
  regionsTotal regions →
  vget regions i = Some reg →
  0 ≤ an < hMapSize →
  adjState regions i pre ret →
  ∃ ret', regionNeighborsHex regions reg an ret = Some ret' ∧
          adjState regions i (pre ++ [an]) ret'.
Proof.
  intros Htotal Hreg Han [Hlen Hret].
  pose proof (regionsTotal_range _ _ _ Htotal Hreg) as Hrange.
  destruct (regionsTotal_get regions an Htotal Han) as (rn & Hrn & Hrnrange).
  destruct (vget_is_Some ret reg) as [row Hrow]; [lia|].
  unfold regionNeighborsHex. rewrite Hrn, Hrow. cbn [mbind option_bind].
  destruct (Hret reg row Hrow) as [Hnodup Hmem].
  destruct (bool_decide (rn ≠ reg) && bool_decide (rn ∉ row)) eqn:Htest.
  - apply andb_true_iff in Htest as [Hne%bool_decide_eq_true Hnew%bool_decide_eq_true].
    rewrite vset_Some by lia. eexists. split; [done|].
    split; [by rewrite length_insert|]. intros r1 nbrs Hnbrs.
    pose proof (vget_lt _ _ _ Hnbrs) as Hlt.
    destruct (decide (r1 = reg)) as [->|Hother].
    + rewrite vget_insert_eq in Hnbrs by lia. injection Hnbrs as <-. split.
      * apply NoDup_app. split; [done|]. split; [|apply NoDup_singleton].
        intros x Hx ->%list_elem_of_singleton. done.
      * intros r2. rewrite elem_of_app, list_elem_of_singleton, Hmem.
        rewrite borderSeen_snoc. split.
        -- intros [[? ?]| ->]; [tauto|]. split; [done|]. right. done.
        -- intros [? [?|[_ Hr2]]]; [tauto|]. right. congruence.
    + rewrite vget_insert_ne in Hnbrs by lia.
      destruct (Hret r1 nbrs Hnbrs) as [? Hmem']. split; [done|].
      intros r2. rewrite Hmem', borderSeen_snoc. split; [tauto|].
      intros [? [?|[Hr1 _]]]; [done|]. congruence.
  - eexists. split; [done|]. split; [done|]. intros r1 nbrs Hnbrs.
    destruct (Hret r1 nbrs Hnbrs) as [? Hmem']. split; [done|].
    intros r2. rewrite Hmem', borderSeen_snoc. split; [tauto|].
    intros [Hne [?|[Hr1 Hr2]]]; [done|].
    assert (r1 = reg) as -> by congruence.
    assert (r2 = rn) as -> by congruence.
    rewrite Hrow in Hnbrs. injection Hnbrs as <-.
    apply Hmem'. apply andb_false_iff in Htest as [Htest|Htest].
    + apply bool_decide_eq_false in Htest. destruct Htest. congruence.
    + apply bool_decide_eq_false in Htest. by apply dec_stable.
Qed.

(** One round of the outer loop of [regionNeighbors]. *)
Lemma regionNeighborsCell_spec regions i ret :
  regionsTotal regions →
  0 ≤ i < hMapSize →
  adjState regions i [] ret →
  ∃ ret', regionNeighborsCell regions i ret = Some ret' ∧
          adjState regions (i + 1) [] ret'.
Proof.
  intros Htotal Hi Hst.
  destruct (regionsTotal_get regions i Htotal Hi) as (reg & Hreg & Hrange).
  destruct (aryNeighbors_spec i) as (av & Hav & _).
  unfold regionNeighborsCell. rewrite Hreg. cbn [mbind option_bind].
  rewrite option_guard_True by done. cbn [mbind option_bind].
  rewrite Hav. cbn [mbind option_bind].
  destruct (for_each_inv (λ pre ret', adjState regions i pre ret')
              (regionNeighborsHex regions reg) av ret) as (ret' & Hrun & Hinv).
  - done.
  - intros pre an ret0 Hin Hst0.
    apply (regionNeighborsHex_spec regions i); try done.
    by apply (aryNeighbors_range i av).
  - exists ret'. split; [done|]. destruct Hinv as [Hlen Hret].
    split; [done|]. intros r1 nbrs Hnbrs.
    destruct (Hret r1 nbrs Hnbrs) as [? Hmem]. split; [done|].
    intros r2. rewrite Hmem. by rewrite (borderSeen_next regions i av).
Qed.

(** [regionNeighbors] returns, and its lists hold, without repetition, the
    other regions met across the border of some hex. *)
Lemma regionNeighbors_spec regions :
  regionsTotal regions →
  ∃ adj, regionNeighbors regions = Some adj ∧
         adjState regions hMapSize [] adj.
Proof.
  intros Htotal. unfold regionNeighbors.
  rewrite option_guard_True by apply Htotal. cbn [mbind option_bind].
  apply (for_range_inv (λ i ret, adjState regions i [] ret)).
  - rewrite hMapSize_eq. lia.
  - split; [by rewrite length_replicate|]. intros r1 nbrs Hnbrs.
    pose proof (vget_lt _ _ _ Hnbrs) as Hr1.
    rewrite length_replicate in Hr1.
    rewrite vget_replicate in Hnbrs by done. injection Hnbrs as <-.
    split; [apply NoDup_nil_2|]. intros r2. rewrite elem_of_nil.
    split; [done|]. intros [_ [(c & _ & _ & Hc & _)|[_ (an & Hin & _)]]].
    + lia.
    + by apply elem_of_nil in Hin.
  - intros i ret Hi Hst. by apply regionNeighborsCell_spec.
Qed.

(** C7. For a total region assignment of the right length
    [regionNeighbors] returns one neighbor list per region; no list holds
    its own region and no list holds a region twice. *)
Theorem regionNeighbors_wellformed (regions : list Z) :
  regionsTotal regions →
  ∃ adj,
    regionNeighbors regions = Some adj ∧
    Z.of_nat (length adj) = numRegions ∧
    ∀ r nbrs, vget adj r = Some nbrs → (r ∉ nbrs) ∧ NoDup nbrs.
Proof.
  intros Htotal.
  destruct (regionNeighbors_spec regions Htotal) as (adj & Hrun & Hlen & Hadj).
  exists adj. split; [done|]. split; [done|]. intros r nbrs Hnbrs.
  destruct (Hadj r nbrs Hnbrs) as [Hnodup Hmem]. split; [|done].
  intros Hin. apply Hmem in Hin as [Hne _]. done.
Qed.

Lemma regionNeighbors_wellformed_witness :
  ∃ adj,
    regionNeighbors regionsHalves = Some adj ∧
    Z.of_nat (length adj) = numRegions ∧
    ∀ r nbrs, vget adj r = Some nbrs → (r ∉ nbrs) ∧ NoDup nbrs.
Proof.
  apply (regionNeighbors_wellformed regionsHalves).
  split; [reflexivity|]. unfold regionsHalves, numRegions.
  apply Forall_app. split; apply Forall_replicate; lia.
Defined.

Example regionNeighbors_regionsHalves :
  regionNeighbors regionsHalves = Some ([[1]; [0]] ++ replicate 16 []).
Proof. vm_compute. reflexivity. Qed.

(** The lists that [regionNeighbors] builds are over [numRegions] regions
    and symmetric: the border between two regions is met from both
    sides. *)
Lemma regionNeighbors_symmetric regions adj :
  regionsTotal regions →
  regionNeighbors regions = Some adj →
  adjOverRegions adj ∧
  ∀ r1 r2, adjacentRegions adj r1 r2 → adjacentRegions adj r2 r1.
Proof.
  intros Htotal Hrun.
  destruct (regionNeighbors_spec regions Htotal) as (adj' & Hrun' & Hlen & Hadj).
  rewrite Hrun in Hrun'. injection Hrun' as <-.
  assert (∀ r1 nbrs r2, vget adj r1 = Some nbrs → r2 ∈ nbrs →
            0 ≤ r2 < numRegions) as Hrange.
  { intros r1 nbrs r2 Hnbrs Hin.
    destruct (Hadj r1 nbrs Hnbrs) as [_ Hmem].
    apply Hmem in Hin as [_ [(c & av & an & _ & _ & _ & _ & Hr2)|[_ (an & Hin & _)]]].
    - by apply (regionsTotal_range regions an).
    - by apply elem_of_nil in Hin. }
  split.
  - split; [done|]. apply Forall_lookup. intros k nbrs Hk.
    apply Forall_forall. intros r2 Hin.
    apply (Hrange (Z.of_nat k) nbrs); [|done].
    apply vget_Some. rewrite Nat2Z.id. split; [lia|done].
  - intros r1 r2 (nbrs & Hnbrs & Hin).
    pose proof (Hrange r1 nbrs r2 Hnbrs Hin) as Hr2.
    destruct (Hadj r1 nbrs Hnbrs) as [_ Hmem].
    apply Hmem in Hin as [Hne [(c & av & an & Hc & Hav & Hin & Hr1c & Hr2an)|[_ (an & Hin & _)]]].
    2:{ by apply elem_of_nil in Hin. }
    destruct (vget_is_Some adj r2) as [nbrs2 Hnbrs2]; [lia|].
    exists nbrs2. split; [done|].
    destruct (Hadj r2 nbrs2 Hnbrs2) as [_ Hmem2]. apply Hmem2.
    split; [done|]. left.
    pose proof (aryNeighbors_range c av an) as Han.
    destruct (aryNeighbors_spec an) as (av' & Hav' & _).
    exists an, av', c. split; [lia|]. split; [done|]. split; [|done].
    by apply (aryNeighbors_symmetric c an av av').
Qed.

(** On the lists that [regionNeighbors] builds, every region differs in
    terrain from each region of its neighbor list, unless the
    later-processed of the two found all terrains in use. *)
Corollary regionNeighbors_coloringValid regions :
  regionsTotal regions →
  ∃ adj, regionNeighbors regions = Some adj ∧ coloringValid adj.
Proof.
  intros Htotal.
  destruct (regionNeighbors_spec regions Htotal) as (adj & Hrun & _).
  exists adj. split; [done|].
  destruct (regionNeighbors_symmetric regions adj Htotal Hrun) as [Hadj Hsym].
  intros terrain r1 r2 t1 t2 Hterrain Hne Hadj12 Ht1 Ht2.
  assert (adjacentRegions adj (Z.max r1 r2) (Z.min r1 r2)) as Hlater.
  { destruct (Z.lt_ge_cases r1 r2).
    - rewrite Z.max_r, Z.min_l by lia. by apply Hsym.
    - rewrite Z.max_l, Z.min_r by lia. done. }
  destruct (assignTerrain_later adj (Z.min r1 r2) (Z.max r1 r2))
    as (terrain' & tlo & thi & Hrun' & Hlo & Hhi & Hdiff); [done|lia|done|].
  rewrite Hterrain in Hrun'. injection Hrun' as <-.
  destruct Hdiff as [Hdiff|[? _]]; [|by right]. left.
  destruct (Z.lt_ge_cases r1 r2).
  - rewrite Z.max_r, Z.min_l in * by lia. congruence.
  - rewrite Z.max_l, Z.min_r in * by lia. congruence.
Qed.

(** ** Region partitioner *)

Lemma hexDist_le_max h1 h2 : hexDist h1 h2 ≤ Sint16_max.
Proof.
  unfold hexDist, Sint16_max.
  destruct (bool_decide (h1 = hInvalid) || bool_decide (h2 = hInvalid));
    [lia|].
  cbv zeta.
  match goal with |- Z.max (toSint16 ?a) (toSint16 ?b) ≤ _ =>
    pose proof (toSint16_range a); pose proof (toSint16_range b) end.
  lia.
Qed.

Lemma hexDist_invalid_r h : hexDist h hInvalid = Sint16_max.
Proof.
  unfold hexDist. rewrite (bool_decide_eq_true_2 (hInvalid = hInvalid)) by done.
  by rewrite orb_true_r.
Qed.

(** Two hexes of the map are less than the largest distance apart. *)
Lemma hexDist_in_bounds h c :
  hexInBounds h → hexInBounds c → hexDist h c < Sint16_max.
Proof.
  destruct h as [hx hy], c as [cx cy].
  unfold hexInBounds, hMapWidth, hMapHeight. cbn [fst snd].
  intros [Hhx Hhy] [Hcx Hcy]. unfold hexDist, hInvalid, Sint16_max.
  rewrite !bool_decide_eq_false_2 by (intros [= ? ?]; lia).
  cbn [orb fst snd].
  rewrite (toSint16_small (Z.abs (hx - cx))) by lia.
  rewrite (toSint16_small (Z.abs (hy - cy))) by lia.
  match goal with |- context [if ?b then 1 else 0] => destruct b end;
    rewrite toSint16_small by lia; lia.
Qed.

Lemma rFindClosest_loop hx hy hCenters :
  Z.of_nat (length hCenters) = numRegions →
  ∃ st,
    for_range 0 numRegions (rFindClosestStep hx hy hCenters) (-1, Sint16_max)
    = Some st ∧
    closestState hx hy hCenters numRegions st.
Proof.
  intros Hlen. apply (for_range_inv (closestState hx hy hCenters)).
  - unfold numRegions. lia.
  - left. split; [done|]. intros i c Hi. lia.
  - intros k st Hk Hst. unfold rFindClosestStep.
    destruct (vget_is_Some hCenters k) as [c Hc]; [lia|].
    rewrite Hc. cbn [mbind option_bind]. eexists. split; [done|].
    pose proof (hexDist_le_max (hx, hy) c) as Hmax.
    destruct (Z.ltb_spec (hexDist (hx, hy) c) st.2) as [Hlt|Hge].
    + right. cbn [fst snd]. split; [lia|]. split.
      * destruct Hst as [[-> _]|(_ & ? & _)]; cbn [snd] in *; lia.
      * exists c. done.
    + destruct Hst as [[-> Hfar]|(Hidx & Hbest & Hc')].
      * left. split; [done|]. intros i c' Hi Hc'.
        destruct (decide (i = k)) as [->|Hne].
        -- rewrite Hc in Hc'. injection Hc' as <-. cbn [snd] in Hge. lia.
        -- apply (Hfar i); [lia|done].
      * right. split; [lia|]. done.
Qed.

Lemma rFindClosest_total hx hy hCenters :
  Z.of_nat (length hCenters) = numRegions →
  ∃ r, rFindClosest hx hy hCenters = Some r.
Proof.
  intros Hlen. unfold rFindClosest.
  destruct (rFindClosest_loop hx hy hCenters Hlen) as (st & -> & _).
  eexists. done.
Qed.

(** [rFindClosest] never returns a region whose center is invalid. *)
Lemma rFindClosest_not_invalid hx hy hCenters r :
  Z.of_nat (length hCenters) = numRegions →
  rFindClosest hx hy hCenters = Some r →
  vget hCenters r ≠ Some hInvalid.
Proof.
  intros Hlen Hr Hinv. unfold rFindClosest in Hr.
  destruct (rFindClosest_loop hx hy hCenters Hlen) as (st & Hrun & Hst).
  rewrite Hrun in Hr. injection Hr as <-.
  destruct Hst as [[-> _]|(_ & Hbest & c & Hc & Hdist)].
  - apply vget_lt in Hinv. cbn [fst] in Hinv. lia.
  - rewrite Hinv in Hc. injection Hc as <-.
    rewrite hexDist_invalid_r in Hdist. lia.
Qed.

(** With a center on the map, [rFindClosest] returns a region for every
    hex of the map, never [-1]. *)
Lemma rFindClosest_region hx hy hCenters :
  centersState hCenters →
  hexInBounds (hx, hy) →
  ∃ r, rFindClosest hx hy hCenters = Some r ∧ 0 ≤ r < numRegions.
Proof.
  intros (Hlen & _ & Hsome) Hh. unfold rFindClosest.
  destruct (rFindClosest_loop hx hy hCenters Hlen) as (st & -> & Hst).
  eexists. split; [done|].
  destruct Hst as [[-> Hfar]|(Hidx & _)]; [|done].
  apply Exists_exists in Hsome as (c & Hin & Hc).
  apply list_elem_of_lookup in Hin as (i & Hi).
  pose proof (lookup_lt_Some _ _ _ Hi) as Hilt.
  pose proof (hexDist_in_bounds (hx, hy) c Hh Hc) as Hnear.
  rewrite (Hfar (Z.of_nat i) c) in Hnear; [lia|lia|].
  apply vget_Some. rewrite Nat2Z.id. split; [lia|done].
Qed.

Lemma cellDone_column hx x y :
  cellDone (hx + 1) 0 x y ↔ cellDone hx hMapHeight x y.
Proof. unfold cellDone, hMapHeight. lia. Qed.

Lemma cellDone_next hx hy x y :
  0 ≤ hx → 0 ≤ hy < hMapHeight →
  cellDone hx (hy + 1) x y ↔ cellDone hx hy x y ∨ x = hx ∧ y = hy.
Proof. unfold cellDone, hMapHeight. lia. Qed.

Lemma cellDone_all i :
  0 ≤ i < hMapSize →
  cellDone hMapWidth 0 (hexFromAry i).1 (hexFromAry i).2 ∧
  (hexFromAry i).2 * hMapWidth + (hexFromAry i).1 = i.
Proof.
  rewrite hMapSize_eq. intros Hi. rewrite hexFromAry_valid by done.
  unfold cellDone, hMapWidth, hMapHeight. cbn [fst snd]. lia.
Qed.

(** One pass of [rAssignClosest]: it returns, and every hex holds the
    result of [rFindClosest] at its coordinates. *)
Lemma rAssignClosest_spec hCenters regions :
  Z.of_nat (length hCenters) = numRegions →
  Z.of_nat (length regions) = hMapSize →
  ∃ regions',
    rAssignClosest hCenters regions = Some regions' ∧
    assignState hCenters hMapWidth 0 regions'.
Proof.
  intros HlenC HlenR. unfold rAssignClosest.
  apply (for_range_inv (λ hx regs, assignState hCenters hx 0 regs)).
  - unfold hMapWidth. lia.
  - split; [done|]. intros x y. unfold cellDone. lia.
  - intros hx regs Hhx Hst.
    destruct (for_range_inv (λ hy regs', assignState hCenters hx hy regs')
                (λ hy regions0, r ← rFindClosest hx hy hCenters;
                                vset regions0 (hy * hMapWidth + hx) r)
                0 hMapHeight regs) as (regs' & Hrun & Hst').
    + unfold hMapHeight. lia.
    + done.
    + intros hy regs0 Hhy [Hlen0 Hdone].
      destruct (rFindClosest_total hx hy hCenters HlenC) as [r Hr].
      rewrite Hr. cbn [mbind option_bind].
      assert (0 ≤ hy * hMapWidth + hx < Z.of_nat (length regs0)) as Hidx.
      { rewrite Hlen0, hMapSize_eq. unfold hMapWidth, hMapHeight in *. lia. }
      rewrite vset_Some by done. eexists. split; [done|].
      split; [by rewrite length_insert|]. intros x y Hxy.
      apply cellDone_next in Hxy as [Hold|[-> ->]]; [| |lia|done].
      * destruct (Hdone x y Hold) as (r' & Hr' & Hget).
        exists r'. split; [done|]. rewrite vget_insert_ne; [done|lia| |].
        -- unfold cellDone, hMapWidth, hMapHeight in *. lia.
        -- unfold cellDone, hMapWidth, hMapHeight in *. lia.
      * exists r. split; [done|]. by apply vget_insert_eq.
    + exists regs'. split; [done|]. destruct Hst' as [Hlen' Hdone].
      split; [done|]. intros x y Hxy. apply Hdone. by apply cellDone_column.
Qed.

Lemma assignState_lookup hCenters regions i :
  assignState hCenters hMapWidth 0 regions →
  0 ≤ i < hMapSize →
  ∃ r, rFindClosest (hexFromAry i).1 (hexFromAry i).2 hCenters = Some r ∧
       vget regions i = Some r.
Proof.
  intros [_ Hdone] Hi. destruct (cellDone_all i Hi) as [Hcell Hidx].
  destruct (Hdone _ _ Hcell) as (r & Hr & Hget).
  exists r. rewrite Hidx in Hget. done.
Qed.

Lemma hexFromAry_in_bounds i : 0 ≤ i < hMapSize → hexInBounds (hexFromAry i).
Proof.
  rewrite hMapSize_eq. intros Hi. rewrite hexFromAry_valid by done.
  unfold hexInBounds, hMapWidth, hMapHeight. cbn [fst snd]. lia.
Qed.

(** One pass with a center on the map gives a total assignment, and no hex
    goes to a region whose center is invalid. *)
Lemma rAssignClosest_total hCenters regions :
  centersState hCenters →
  Z.of_nat (length regions) = hMapSize →
  ∃ regions',
    rAssignClosest hCenters regions = Some regions' ∧
    assignState hCenters hMapWidth 0 regions' ∧
    regionsTotal regions' ∧
    ∀ r, vget hCenters r = Some hInvalid → r ∉ regions'.
Proof.
  intros Hcenters HlenR. pose proof Hcenters as (HlenC & _).
  destruct (rAssignClosest_spec hCenters regions HlenC HlenR)
    as (regions' & Hrun & Hst).
  exists regions'. split; [done|]. split; [done|].
  assert (∀ k r, regions' !! k = Some r →
            rFindClosest (hexFromAry (Z.of_nat k)).1
              (hexFromAry (Z.of_nat k)).2 hCenters = Some r ∧
            0 ≤ Z.of_nat k < hMapSize) as Hfound.
  { intros k r Hk. pose proof (lookup_lt_Some _ _ _ Hk) as Hlt.
    assert (0 ≤ Z.of_nat k < hMapSize) as Hi by (destruct Hst as [<- _]; lia).
    split; [|done].
    destruct (assignState_lookup hCenters regions' _ Hst Hi) as (r' & Hr' & Hget).
    apply vget_Some in Hget as [_ Hget]. rewrite Nat2Z.id in Hget.
    congruence. }
  split.
  - split; [apply Hst|]. apply Forall_lookup. intros k r Hk.
    destruct (Hfound k r Hk) as [Hr Hi].
    destruct (rFindClosest_region (hexFromAry (Z.of_nat k)).1
                (hexFromAry (Z.of_nat k)).2 hCenters Hcenters)
      as (r' & Hr' & Hrange).
    { rewrite <- surjective_pairing. by apply hexFromAry_in_bounds. }
    congruence.
  - intros r Hinv (k & Hk)%list_elem_of_lookup.
    destruct (Hfound k r Hk) as [Hr _].
    by apply (rFindClosest_not_invalid _ _ _ _ HlenC Hr).
Qed.

Lemma regions_elem_cell (regions : list Z) (r : Z) :
  Z.of_nat (length regions) = hMapSize →
  r ∈ regions ↔
  ∃ x y, cellDone hMapWidth 0 x y ∧
         vget regions (y * hMapWidth + x) = Some r.
Proof.
  intros Hlen. split.
  - intros (k & Hk)%list_elem_of_lookup.
    pose proof (lookup_lt_Some _ _ _ Hk) as Hlt.
    assert (0 ≤ Z.of_nat k < hMapSize) as Hi by lia.
    destruct (cellDone_all _ Hi) as [Hcell Hidx].
    eexists _, _. split; [done|]. rewrite Hidx.
    apply vget_Some. rewrite Nat2Z.id. split; [lia|done].
  - intros (x & y & _ & [_ Hget]%vget_Some).
    apply list_elem_of_lookup. eauto.
Qed.

(** One round of the inner loop of [hGetCenters]. *)
Lemma hGetCentersCell_spec regions hx hy st :
  regionsTotal regions →
  0 ≤ hx < hMapWidth → 0 ≤ hy < hMapHeight →
  sumsState regions hx hy st →
  ∃ st', hGetCentersCell regions hx hy st = Some st' ∧
         sumsState regions hx (hy + 1) st'.
Proof.
  intros Htotal Hhx Hhy (HlenS & HlenN & Hst). unfold hGetCentersCell.
  destruct (regionsTotal_get regions (hy * hMapWidth + hx) Htotal)
    as (region & Hregion & Hrange).
  { rewrite hMapSize_eq. unfold hMapWidth, hMapHeight in *. lia. }
  rewrite Hregion. cbn [mbind option_bind].
  rewrite option_guard_True by done. cbn [mbind option_bind].
  destruct (Hst region Hrange) as (hs & n & Hhs & Hn & Hcount & Hsx & Hsy & Hpos).
  rewrite Hhs. cbn [mbind option_bind]. rewrite vset_Some by lia.
  cbn [mbind option_bind]. rewrite Hn. cbn [mbind option_bind].
  rewrite vset_Some by lia. cbn [mbind option_bind].
  eexists. split; [done|]. unfold sumsState. cbn [fst snd].
  split; [by rewrite length_insert|]. split; [by rewrite length_insert|].
  intros r Hr. unfold hMapWidth, hMapHeight in *.
  destruct (decide (r = region)) as [->|Hne].
  - rewrite !vget_insert_eq by lia. eexists _, _.
    split; [done|]. split; [done|]. cbn [fst snd].
    rewrite !toSint16_small by lia.
    split; [lia|]. split; [lia|]. split; [lia|]. split; [|lia].
    intros _. exists hx, hy. split; [|done].
    unfold cellDone, hMapHeight. lia.
  - rewrite !vget_insert_ne by lia.
    destruct (Hst r Hr) as (hs' & n' & Hhs' & Hn' & Hcount' & Hsx' & Hsy' & Hpos').
    exists hs', n'. split; [done|]. split; [done|].
    split; [lia|]. split; [lia|]. split; [lia|].
    rewrite Hpos'. split.
    + intros (x & y & Hcell & Hget). exists x, y. split; [|done].
      apply cellDone_next; [lia|done|]. by left.
    + intros (x & y & Hcell & Hget).
      apply cellDone_next in Hcell as [Hold|[-> ->]]; [| |lia|done].
      * eauto.
      * congruence.
Qed.

(** The accumulation loops of [hGetCenters]. *)
Lemma hGetCenters_sums regions :
  regionsTotal regions →
  ∃ st,
    for_range 0 hMapWidth
      (λ hx, for_range 0 hMapHeight (hGetCentersCell regions hx))
      (replicate (Z.to_nat numRegions) (0, 0),
       replicate (Z.to_nat numRegions) 0) = Some st ∧
    sumsState regions hMapWidth 0 st.
Proof.
  intros Htotal.
  apply (for_range_inv (λ hx st, sumsState regions hx 0 st)).
  - unfold hMapWidth. lia.
  - unfold sumsState. cbn [fst snd]. rewrite !length_replicate.
    split; [done|]. split; [done|]. intros r Hr.
    exists (0, 0), 0. rewrite !vget_replicate by lia. cbn [fst snd].
    split; [done|]. split; [done|]. unfold hMapWidth, hMapHeight.
    split; [lia|]. split; [lia|]. split; [lia|]. split; [lia|].
    intros (x & y & Hcell & _). unfold cellDone in Hcell. lia.
  - intros hx st Hhx Hst.
    destruct (for_range_inv (λ hy st', sumsState regions hx hy st')
                (hGetCentersCell regions hx) 0 hMapHeight st)
      as (st' & Hrun & Hst').
    + unfold hMapHeight. lia.
    + done.
    + intros hy st0 Hhy Hst0. by apply hGetCentersCell_spec.
    + exists st'. split; [done|].
      destruct Hst' as (HlenS & HlenN & Hall).
      split; [done|]. split; [done|]. intros r Hr.
      destruct (Hall r Hr) as (hs & n & Hhs & Hn & Hcount & Hsx & Hsy & Hpos).
      exists hs, n. split; [done|]. split; [done|].
      split; [unfold hMapHeight in *; lia|]. split; [done|]. split; [done|].
      rewrite Hpos. split; intros (x & y & Hcell & Hget); exists x, y;
        (split; [by apply cellDone_column|done]).
Qed.

(** [hGetCenters] returns, for a total assignment, the invalid hex for the
    regions without hexes and a hex of the map for the others. *)
Lemma hGetCenters_spec regions :
  regionsTotal regions →
  ∃ hCenters, hGetCenters regions = Some hCenters ∧ centersOf regions hCenters.
Proof.
  intros Htotal. unfold hGetCenters.
  rewrite option_guard_True by apply Htotal. cbn [mbind option_bind].
  destruct (hGetCenters_sums regions Htotal) as (st & -> & HlenS & HlenN & Hst).
  cbn [mbind option_bind].
  destruct (for_range_inv
    (λ k (hCenters : list Point),
       Z.of_nat (length hCenters) = numRegions ∧
       (∀ r, 0 ≤ r < k →
          ∃ c, vget hCenters r = Some c ∧
               ((r ∉ regions) ∧ c = hInvalid ∨ r ∈ regions ∧ hexInBounds c)) ∧
       (∀ r, k ≤ r < numRegions → vget hCenters r = Some hInvalid))
    (λ r hCenters,
       n ← vget st.2 r;
       if 0 <? n then
         hs ← vget st.1 r;
         vset hCenters r (toSint16 (hs.1 `quot` n), toSint16 (hs.2 `quot` n))
       else Some hCenters)
    0 numRegions (replicate (Z.to_nat numRegions) hInvalid))
    as (hCenters & Hrun & Hlen & Hlow & _).
  - unfold numRegions. lia.
  - rewrite length_replicate. split; [done|]. split; [intros r Hr; lia|].
    intros r Hr. apply vget_replicate. lia.
  - intros k hCenters Hk (Hlen & Hlow & Hhigh).
    destruct (Hst k Hk) as (hs & n & Hhs & Hn & Hcount & Hsx & Hsy & Hpos).
    rewrite Hn. cbn [mbind option_bind].
    rewrite <- (regions_elem_cell regions k) in Hpos by apply Htotal.
    destruct (Z.ltb_spec 0 n) as [Hnpos|Hnzero].
    + rewrite Hhs. cbn [mbind option_bind]. rewrite vset_Some by lia.
      eexists. split; [done|]. split; [by rewrite length_insert|]. split.
      * intros r Hr. destruct (decide (r = k)) as [->|Hne].
        -- rewrite vget_insert_eq by lia. eexists. split; [done|]. right.
           split; [by apply Hpos|].
           unfold hexInBounds, hMapWidth, hMapHeight in *. cbn [fst snd].
           assert (0 ≤ hs.1 `quot` n ≤ 15).
           { split; [apply Z.quot_pos; lia|].
             apply Z.quot_le_upper_bound; lia. }
           assert (0 ≤ hs.2 `quot` n ≤ 8).
           { split; [apply Z.quot_pos; lia|].
             apply Z.quot_le_upper_bound; lia. }
           rewrite !toSint16_small by lia. lia.
        -- rewrite vget_insert_ne by lia. apply Hlow. lia.
      * intros r Hr. rewrite vget_insert_ne by lia. apply Hhigh. lia.
    + eexists. split; [done|]. split; [done|]. split.
      * intros r Hr. destruct (decide (r = k)) as [->|Hne].
        -- exists hInvalid. split; [apply Hhigh; lia|]. left.
           split; [|done]. intros Hin. apply Hpos in Hin. lia.
        -- apply Hlow. lia.
      * intros r Hr. apply Hhigh. lia.
  - exists hCenters. split; [done|]. split; [done|]. done.
Qed.

Lemma centersOf_state regions hCenters :
  regionsTotal regions → centersOf regions hCenters → centersState hCenters.
Proof.
  intros Htotal [Hlen Hall]. split; [done|]. split.
  - apply Forall_lookup. intros k c Hk.
    pose proof (lookup_lt_Some _ _ _ Hk) as Hlt.
    destruct (Hall (Z.of_nat k)) as (c' & Hc' & Hcases); [lia|].
    apply vget_Some in Hc' as [_ Hc']. rewrite Nat2Z.id in Hc'.
    assert (c' = c) as -> by congruence. tauto.
  - destruct (regionsTotal_get regions 0 Htotal) as (r & Hr & Hrange).
    { rewrite hMapSize_eq. lia. }
    assert (r ∈ regions) as Hin.
    { apply vget_Some in Hr as [_ Hr]. apply list_elem_of_lookup. eauto. }
    destruct (Hall r Hrange) as (c & Hc & [[Hout _]|[_ Hc']]); [done|].
    apply Exists_exists. exists c. split; [|done].
    apply vget_Some in Hc as [_ Hc]. apply list_elem_of_lookup. eauto.
Qed.

Lemma centersOf_empty regions hCenters r :
  centersOf regions hCenters →
  0 ≤ r < numRegions → r ∉ regions →
  vget hCenters r = Some hInvalid.
Proof.
  intros [_ Hall] Hr Hout.
  destruct (Hall r Hr) as (c & Hc & [[_ ->]|[Hin _]]); done.
Qed.

(** One relaxation round of [rGenerate]. *)
Lemma rGenerateRound_spec k st :
  0 ≤ k →
  roundState k st →
  ∃ st', rGenerateRound st = Some st' ∧
         roundState (k + 1) st' ∧
         ∀ r, vget st.1 r = Some hInvalid → r ∉ st'.2.
Proof.
  intros Hk (Hcenters & Hlen & _). unfold rGenerateRound.
  destruct (rAssignClosest_total st.1 st.2 Hcenters Hlen)
    as (regions & -> & _ & Htotal & Hempty).
  cbn [mbind option_bind].
  destruct (hGetCenters_spec regions Htotal) as (hCenters & -> & Hof).
  cbn [mbind option_bind]. eexists. split; [done|]. cbn [fst snd].
  split; [|done]. split; [by apply (centersOf_state regions)|].
  split; [apply Htotal|]. done.
Qed.

(** The seeds are hexes of the map. *)
Lemma rGenerateSeeds_spec aRands :
  seedsValid aRands →
  ∃ hCenters, rGenerateSeeds aRands = Some hCenters ∧ centersState hCenters.
Proof.
  intros [Hlen Hall]. unfold rGenerateSeeds.
  destruct (for_range_inv
    (λ k (hCenters : list Point),
       Z.of_nat (length hCenters) = k ∧ Forall hexInBounds hCenters)
    (λ r hCenters, aRand ← vget aRands r; Some (hCenters ++ [hexRandom aRand]))
    0 numRegions []) as (hCenters & Hrun & Hlen' & Hin).
  - unfold numRegions. lia.
  - split; [done|]. apply Forall_nil_2.
  - intros k hCenters Hk [Hlenk Hink].
    destruct (vget_is_Some aRands k) as [aRand HaRand]; [lia|].
    rewrite HaRand. cbn [mbind option_bind]. eexists. split; [done|].
    split; [rewrite length_app; simpl; lia|].
    apply Forall_app. split; [done|]. apply Forall_singleton.
    apply hexFromAry_in_bounds. apply vget_Some in HaRand as [_ HaRand].
    rewrite Forall_lookup in Hall. specialize (Hall _ _ HaRand).
    rewrite hMapSize_eq. unfold hMapWidth, hMapHeight in Hall. lia.
  - exists hCenters. split; [done|]. split; [done|]. split.
    + eapply Forall_impl; [done|]. by right.
    + destruct hCenters as [|c hCenters]; [simpl in Hlen'; unfold numRegions in *; lia|].
      apply Exists_cons_hd. by apply Forall_cons in Hin as [? _].
Qed.

Lemma rGenerateRounds_succ k aRands :
  0 ≤ k →
  rGenerateRounds (k + 1) aRands
  = st ← rGenerateRounds k aRands; rGenerateRound st.
Proof.
  intros Hk. unfold rGenerateRounds.
  destruct (rGenerateSeeds aRands) as [hCenters|]; [|done].
  cbn [mbind option_bind]. by rewrite for_range_snoc by done.
Qed.

(** [rGenerate] gets through any number of relaxation rounds. *)
Lemma rGenerateRounds_spec k aRands :
  seedsValid aRands →
  0 ≤ k →
  ∃ st, rGenerateRounds k aRands = Some st ∧ roundState k st.
Proof.
  intros Hseeds Hk. unfold rGenerateRounds.
  destruct (rGenerateSeeds_spec aRands Hseeds) as (hCenters & -> & Hcenters).
  cbn [mbind option_bind].
  apply (for_range_inv (λ j st, roundState j st)); [done| |].
  - split; [done|]. split; [|lia]. cbn [snd]. rewrite length_replicate.
    rewrite hMapSize_eq. lia.
  - intros j st Hj Hst.
    destruct (rGenerateRound_spec j st) as (st' & Hrun & Hst' & _); [lia|done|].
    exists st'. done.
Qed.

(** A region without hexes after round [k] has none after any later
    round. *)
Lemma rGenerateRounds_empty aRands k st r :
  seedsValid aRands →
  1 ≤ k →
  0 ≤ r < numRegions →
  rGenerateRounds k aRands = Some st →
  r ∉ st.2 →
  ∀ n, ∃ st', rGenerateRounds (k + Z.of_nat n) aRands = Some st' ∧ r ∉ st'.2.
Proof.
  intros Hseeds Hk Hr Hrun Hout n. induction n as [|n (st' & Hrun' & Hout')].
  - exists st. replace (k + Z.of_nat 0) with k by lia. done.
  - replace (k + Z.of_nat (S n)) with (k + Z.of_nat n + 1) by lia.
    rewrite rGenerateRounds_succ by lia. rewrite Hrun'.
    cbn [mbind option_bind].
    destruct (rGenerateRounds_spec (k + Z.of_nat n) aRands) as (st0 & Hrun0 & Hst0);
      [done|lia|].
    rewrite Hrun' in Hrun0. injection Hrun0 as <-.
    destruct (rGenerateRound_spec (k + Z.of_nat n) st') as (st'' & -> & _ & Hempty);
      [lia|done|].
    exists st''. split; [done|]. apply Hempty.
    destruct Hst0 as (_ & _ & Hof). destruct Hof as [_ Hof]; [lia|].
    by apply (centersOf_empty st'.2).
Qed.

(** C1. Whatever hexes are drawn as seeds, [rGenerate] returns a vector
    that gives every hex index below [hMapWidth * hMapHeight] one region
    number of [0, numRegions).  At every pass, that is with the centers
    [hCenters] held after [k] relaxation rounds for [k] from 0 to 4, some
    center is a hex of the map and [rFindClosest] returns a region number
    and not [-1] for every hex of the map. *)
Theorem rGenerate_total (aRands : list Z) :
  seedsValid aRands →
  (∃ regions,
     rGenerate aRands = Some regions ∧
     Z.of_nat (length regions) = hMapWidth * hMapHeight ∧
     ∀ i, 0 ≤ i < hMapWidth * hMapHeight →
          ∃ r, vget regions i = Some r ∧ 0 ≤ r < numRegions) ∧
  ∀ k, 0 ≤ k ≤ 4 →
    ∃ hCenters regions,
      rGenerateRounds k aRands = Some (hCenters, regions) ∧
      Exists hexInBounds hCenters ∧
      ∀ hx hy, hexInBounds (hx, hy) →
        ∃ r, rFindClosest hx hy hCenters = Some r ∧ 0 ≤ r < numRegions.
Proof.
  intros Hseeds. split.
  - destruct (rGenerateRounds_spec 4 aRands Hseeds) as (st & Hrun & Hst); [lia|].
    destruct Hst as (Hcenters & Hlen & _).
    destruct (rAssignClosest_total st.1 st.2 Hcenters Hlen)
      as (regions & Hfinal & _ & Htotal & _).
    exists regions. unfold rGenerate. rewrite Hrun. cbn [mbind option_bind].
    split; [done|]. change (hMapWidth * hMapHeight) with hMapSize.
    split; [apply Htotal|]. intros i Hi. by apply regionsTotal_get.
  - intros k Hk.
    destruct (rGenerateRounds_spec k aRands Hseeds) as ([hCenters regions] & Hrun & Hst);
      [lia|].
    exists hCenters, regions. split; [done|].
    destruct Hst as (Hcenters & _). split; [apply Hcenters|].
    intros hx hy Hh. by apply rFindClosest_region.
Qed.

Lemma rGenerate_total_witness :
  (∃ regions,
     rGenerate seedsSpread = Some regions ∧
     Z.of_nat (length regions) = hMapWidth * hMapHeight ∧
     ∀ i, 0 ≤ i < hMapWidth * hMapHeight →
          ∃ r, vget regions i = Some r ∧ 0 ≤ r < numRegions) ∧
  ∀ k, 0 ≤ k ≤ 4 →
    ∃ hCenters regions,
      rGenerateRounds k seedsSpread = Some (hCenters, regions) ∧
      Exists hexInBounds hCenters ∧
      ∀ hx hy, hexInBounds (hx, hy) →
        ∃ r, rFindClosest hx hy hCenters = Some r ∧ 0 ≤ r < numRegions.
Proof.
  apply (rGenerate_total seedsSpread).
  split; [reflexivity|]. unfold seedsSpread, hMapWidth, hMapHeight.
  repeat (apply Forall_cons; split); try apply Forall_nil; lia.
Defined.

(** C8. A region that has no hex after the assignment pass of relaxation
    round [k] has none after the pass of any later round [k'], nor in the
    result of [rGenerate]: the center computed for it is the invalid hex,
    the distance to the invalid hex is the largest one, and [rFindClosest]
    never returns a region with that center. *)
Theorem rGenerate_empty_region_stays (aRands : list Z) (k k' : Z)
    (hCenters : list Point) (regions : list Z) (r : Z) :
  seedsValid aRands →
  1 ≤ k ≤ k' →
  k' ≤ 4 →
  0 ≤ r < numRegions →
  rGenerateRounds k aRands = Some (hCenters, regions) →
  r ∉ regions →
  vget hCenters r = Some hInvalid ∧
  (∀ h, hexDist h hInvalid = Sint16_max) ∧
  (∀ hx hy, rFindClosest hx hy hCenters ≠ Some r) ∧
  (∃ hCenters' regions',
     rGenerateRounds k' aRands = Some (hCenters', regions') ∧
     r ∉ regions') ∧
  (∃ final, rGenerate aRands = Some final ∧ r ∉ final).
Proof.
  intros Hseeds Hk Hk' Hr Hrun Hout.
  destruct (rGenerateRounds_spec k aRands Hseeds) as (st & Hrun0 & Hst); [lia|].
  rewrite Hrun in Hrun0. injection Hrun0 as <-.
  destruct Hst as (Hcenters & _ & Hof). destruct Hof as [_ Hof]; [lia|].
  cbn [fst snd] in *.
  pose proof (centersOf_empty regions hCenters r Hof Hr Hout) as Hinv.
  split; [done|]. split; [apply hexDist_invalid_r|]. split.
  { intros hx hy Hfound.
    by apply (rFindClosest_not_invalid hx hy hCenters r (proj1 Hcenters)). }
  split.
  - destruct (rGenerateRounds_empty aRands k (hCenters, regions) r
                Hseeds (proj1 Hk) Hr Hrun Hout (Z.to_nat (k' - k)))
      as ([hCenters' regions'] & Hrun' & Hout').
    replace (k + Z.of_nat (Z.to_nat (k' - k))) with k' in Hrun' by lia.
    exists hCenters', regions'. done.
  - destruct (rGenerateRounds_empty aRands k (hCenters, regions) r
                Hseeds (proj1 Hk) Hr Hrun Hout (Z.to_nat (4 - k)))
      as ([hCenters4 regions4] & Hrun4 & Hout4).
    replace (k + Z.of_nat (Z.to_nat (4 - k))) with 4 in Hrun4 by lia.
    destruct (rGenerateRounds_spec 4 aRands Hseeds) as (st4 & Hrun4' & Hst4);
      [lia|].
    rewrite Hrun4 in Hrun4'. injection Hrun4' as <-.
    destruct Hst4 as (Hcenters4 & Hlen4 & Hof4).
    destruct Hof4 as [_ Hof4]; [lia|]. cbn [fst snd] in *.
    destruct (rAssignClosest_total hCenters4 regions4 Hcenters4 Hlen4)
      as (final & Hfinal & _ & _ & Hempty).
    exists final. unfold rGenerate. rewrite Hrun4. cbn [mbind option_bind].
    split; [done|]. apply Hempty.
    by apply (centersOf_empty regions4).
Qed.

Lemma rGenerate_empty_region_stays_witness :
  vget ((7, 4) :: replicate 17 hInvalid) 1 = Some hInvalid ∧
  (∀ h, hexDist h hInvalid = Sint16_max) ∧
  (∀ hx hy,
     rFindClosest hx hy ((7, 4) :: replicate 17 hInvalid) ≠ Some 1) ∧
  (∃ hCenters' regions',
     rGenerateRounds 4 seedsSame = Some (hCenters', regions') ∧
     1 ∉ regions') ∧
  (∃ final, rGenerate seedsSame = Some final ∧ 1 ∉ final).
Proof.
  apply (rGenerate_empty_region_stays seedsSame 1 4
           ((7, 4) :: replicate 17 hInvalid) (replicate 144 0) 1).
  - split; [reflexivity|]. unfold seedsSame, hMapWidth, hMapHeight.
    apply Forall_replicate. lia.
  - lia.
  - lia.
  - unfold numRegions. lia.
  - vm_compute. reflexivity.
  - intros [Heq _]%elem_of_replicate. lia.
Defined.

(** * Further properties of the code *)

(** ** Loops that return have run every round *)

Lemma forZ_Some_inv {St} (Inv : Z → St → Prop)
    (body : Z → St → option St) n lo s0 s' :
  forZ n lo body s0 = Some s' →
  Inv lo s0 →
  (∀ i s s1, lo ≤ i < lo + Z.of_nat n → Inv i s → body i s = Some s1 →
             Inv (i + 1) s1) →
  Inv (lo + Z.of_nat n) s'.
Proof.
  revert lo s0. induction n as [|n IH]; intros lo s0 Hrun H0 Hstep.
  - injection Hrun as <-. by replace (lo + Z.of_nat 0) with lo by lia.
  - simpl in Hrun. destruct (body lo s0) as [s1|] eqn:Hbody; [|done].
    simpl in Hrun.
    replace (lo + Z.of_nat (S n)) with (lo + 1 + Z.of_nat n) by lia.
    apply (IH (lo + 1) s1); [done| |].
    + apply (Hstep lo s0); [lia|done|done].
    + intros i s s2 Hi. apply Hstep. lia.
Qed.

(** A loop that returns has kept every property that each round which
    returns keeps. *)
Lemma for_range_Some_inv {St} (Inv : Z → St → Prop)
    (body : Z → St → option St) lo hi s0 s' :
  lo ≤ hi →
  for_range lo hi body s0 = Some s' →
  Inv lo s0 →
  (∀ i s s1, lo ≤ i < hi → Inv i s → body i s = Some s1 → Inv (i + 1) s1) →
  Inv hi s'.
Proof.
  intros Hle Hrun H0 Hstep. unfold for_range in Hrun.
  replace hi with (lo + Z.of_nat (Z.to_nat (hi - lo))) by lia.
  apply (forZ_Some_inv Inv body _ lo s0 s' Hrun H0).
  intros i s s1 Hi. apply Hstep. lia.
Qed.

(** ** The closest center *)

Lemma rFindClosest_nearest_loop hx hy hCenters :
  Z.of_nat (length hCenters) = numRegions →
  ∃ st,
    for_range 0 numRegions (rFindClosestStep hx hy hCenters) (-1, Sint16_max)
    = Some st ∧
    nearestState hx hy hCenters numRegions st.
Proof.
  intros Hlen. apply (for_range_inv (nearestState hx hy hCenters)).
  - unfold numRegions. lia.
  - split; [done|]. split; [intros i c Hi; lia|]. by left.
  - intros k st Hk (Hcap & Hleast & Hfirst). unfold rFindClosestStep.
    destruct (vget_is_Some hCenters k) as [c Hc]; [lia|].
    rewrite Hc. cbn [mbind option_bind]. eexists. split; [done|].
    pose proof (hexDist_le_max (hx, hy) c) as Hmax.
    destruct (Z.ltb_spec (hexDist (hx, hy) c) st.2) as [Hlt|Hge].
    + split; [done|]. cbn [fst snd]. split.
      * intros i c' Hi Hc'. destruct (decide (i = k)) as [->|Hne].
        -- rewrite Hc in Hc'. injection Hc' as <-. lia.
        -- specialize (Hleast i c'). lia.
      * right. split; [lia|]. split; [lia|]. split; [by exists c|].
        intros i c' Hi Hc'. specialize (Hleast i c'). lia.
    + split; [done|]. split.
      * intros i c' Hi Hc'. destruct (decide (i = k)) as [->|Hne].
        -- rewrite Hc in Hc'. injection Hc' as <-. lia.
        -- apply (Hleast i c'); [lia|done].
      * destruct Hfirst as [?|(? & ? & ? & ?)]; [by left|].
        right. split; [lia|]. done.
Qed.

Lemma rFindClosest_nearestRegion hx hy hCenters :
  Z.of_nat (length hCenters) = numRegions →
  ∃ r, rFindClosest hx hy hCenters = Some r ∧
       nearestRegion hx hy hCenters r.
Proof.
  intros Hlen. unfold rFindClosest.
  destruct (rFindClosest_nearest_loop hx hy hCenters Hlen)
    as (st & -> & Hcap & Hleast & Hfirst).
  exists st.1. split; [done|].
  assert (∀ i c, vget hCenters i = Some c → st.2 ≤ hexDist (hx, hy) c) as Hall.
  { intros i c Hc. pose proof (vget_lt _ _ _ Hc). apply (Hleast i); [lia|done]. }
  destruct Hfirst as [[H1 H2]|(Hidx & Hbest & (c & Hc & Hdist) & Hbefore)].
  - left. split; [done|]. intros i c Hc.
    pose proof (Hall i c Hc). pose proof (hexDist_le_max (hx, hy) c). lia.
  - right. split; [done|]. exists c. split; [done|]. rewrite Hdist.
    split; [done|]. split; [done|]. done.
Qed.

(** X1. [rFindClosest] returns the region of a nearest center, and among
    the regions with a nearest center the one of lowest number; it returns
    [-1] when, and only when, every center is at the largest distance, as
    invalid centers are. *)
Theorem rFindClosest_nearest (hx hy : Z) (hCenters : list Point) :
  Z.of_nat (length hCenters) = numRegions →
  ∃ r,
    rFindClosest hx hy hCenters = Some r ∧
    nearestRegion hx hy hCenters r ∧
    (r = -1 ↔
     ∀ i c, vget hCenters i = Some c → hexDist (hx, hy) c = Sint16_max).
Proof.
  intros Hlen.
  destruct (rFindClosest_nearestRegion hx hy hCenters Hlen) as (r & Hr & Hnear).
  exists r. split; [done|]. split; [done|].
  destruct Hnear as [[-> Hfar]|(Hrange & c & Hc & Hlt & _)].
  - done.
  - split; [lia|]. intros Hfar. specialize (Hfar r c Hc). lia.
Qed.

Lemma rFindClosest_nearest_witness :
  ∃ r,
    rFindClosest 2 2 centersTie = Some r ∧
    nearestRegion 2 2 centersTie r ∧
    (r = -1 ↔
     ∀ i c, vget centersTie i = Some c → hexDist (2, 2) c = Sint16_max).
Proof.
  apply (rFindClosest_nearest 2 2 centersTie). reflexivity.
Defined.

Example rFindClosest_centersTie : rFindClosest 2 2 centersTie = Some 1.
Proof. reflexivity. Qed.

(** X2. The regions that [rGenerate] returns are the Voronoi cells of the
    centers it holds after the four relaxation rounds: every hex is given
    to the region of a nearest center, the lowest-numbered one among
    several. *)
Theorem rGenerate_voronoi (aRands : list Z) :
  seedsValid aRands →
  ∃ hCenters regions4 regions,
    rGenerateRounds 4 aRands = Some (hCenters, regions4) ∧
    rGenerate aRands = Some regions ∧
    ∀ i, 0 ≤ i < hMapSize →
      ∃ r, vget regions i = Some r ∧
           nearestRegion (hexFromAry i).1 (hexFromAry i).2 hCenters r.
Proof.
  intros Hseeds.
  destruct (rGenerateRounds_spec 4 aRands Hseeds)
    as ([hCenters regions4] & Hrun & Hcenters & Hlen & _); [lia|].
  cbn [fst snd] in *.
  destruct (rAssignClosest_spec hCenters regions4 (proj1 Hcenters) Hlen)
    as (regions & Hfinal & Hst).
  exists hCenters, regions4, regions. split; [done|]. split.
  { unfold rGenerate. rewrite Hrun. done. }
  intros i Hi.
  destruct (assignState_lookup hCenters regions i Hst Hi) as (r & Hr & Hget).
  exists r. split; [done|].
  destruct (rFindClosest_nearestRegion (hexFromAry i).1 (hexFromAry i).2
              hCenters (proj1 Hcenters)) as (r' & Hr' & Hnear).
  congruence.
Qed.

Lemma rGenerate_voronoi_witness :
  ∃ hCenters regions4 regions,
    rGenerateRounds 4 seedsSpread = Some (hCenters, regions4) ∧
    rGenerate seedsSpread = Some regions ∧
    ∀ i, 0 ≤ i < hMapSize →
      ∃ r, vget regions i = Some r ∧
           nearestRegion (hexFromAry i).1 (hexFromAry i).2 hCenters r.
Proof.
  apply (rGenerate_voronoi seedsSpread).
  split; [reflexivity|]. unfold seedsSpread, hMapWidth, hMapHeight.
  repeat (apply Forall_cons; split); try apply Forall_nil; lia.
Defined.

(** X3. An assignment pass writes every hex: its result depends on the
    centers only, not on what the regions vector held before. *)
Theorem rAssignClosest_overwrites (hCenters : list Point)
    (regions regions' : list Z) :
  Z.of_nat (length hCenters) = numRegions →
  Z.of_nat (length regions) = hMapSize →
  Z.of_nat (length regions') = hMapSize →
  is_Some (rAssignClosest hCenters regions) ∧
  rAssignClosest hCenters regions = rAssignClosest hCenters regions'.
Proof.
  intros HlenC Hlen Hlen'.
  destruct (rAssignClosest_spec hCenters regions HlenC Hlen) as (out & Hout & Hst).
  destruct (rAssignClosest_spec hCenters regions' HlenC Hlen')
    as (out' & Hout' & Hst').
  rewrite Hout, Hout'. split; [done|]. f_equal. apply list_eq. intros k.
  destruct (decide (Z.of_nat k < hMapSize)) as [Hk|Hk].
  - destruct (assignState_lookup hCenters out (Z.of_nat k) Hst) as (r & Hr & Hget);
      [lia|].
    destruct (assignState_lookup hCenters out' (Z.of_nat k) Hst')
      as (r' & Hr' & Hget'); [lia|].
    apply vget_Some in Hget as [_ Hget]. apply vget_Some in Hget' as [_ Hget'].
    rewrite Nat2Z.id in Hget, Hget'. congruence.
  - destruct Hst as [Hl _], Hst' as [Hl' _].
    rewrite !lookup_ge_None_2 by lia. done.
Qed.

Lemma rAssignClosest_overwrites_witness :
  is_Some (rAssignClosest centersTie regionsHalves) ∧
  rAssignClosest centersTie regionsHalves
  = rAssignClosest centersTie (replicate 144 7).
Proof.
  apply (rAssignClosest_overwrites centersTie regionsHalves (replicate 144 7));
    reflexivity.
Defined.

(** ** Centers of mass *)

Lemma sumCells_next f hx hy :
  0 ≤ hy → sumCells f hx (hy + 1) = sumCells f hx hy + f hx hy.
Proof.
  intros Hhy. unfold sumCells.
  replace (Z.to_nat (hy + 1)) with (S (Z.to_nat hy)) by lia.
  simpl. rewrite Z2Nat.id by done. lia.
Qed.

Lemma sumCells_column f hx :
  0 ≤ hx → sumCells f (hx + 1) 0 = sumCells f hx hMapHeight.
Proof.
  intros Hhx. unfold sumCells.
  replace (Z.to_nat (hx + 1)) with (S (Z.to_nat hx)) by lia.
  simpl. rewrite Z2Nat.id by done. lia.
Qed.

(** One round of the inner loop of [hGetCenters], with the exact sums. *)
Lemma hGetCentersCell_exact regions hx hy st :
  regionsTotal regions →
  0 ≤ hx < hMapWidth → 0 ≤ hy < hMapHeight →
  sumsState regions hx hy st ∧ sumsExact regions hx hy st →
  ∃ st', hGetCentersCell regions hx hy st = Some st' ∧
         sumsState regions hx (hy + 1) st' ∧
         sumsExact regions hx (hy + 1) st'.
Proof.
  intros Htotal Hhx Hhy [Hst Hexact].
  destruct (hGetCentersCell_spec regions hx hy st Htotal Hhx Hhy Hst)
    as (st' & Hrun & Hst').
  exists st'. split; [done|]. split; [done|].
  destruct Hst as (HlenS & HlenN & Hbounds).
  unfold hGetCentersCell in Hrun.
  destruct (regionsTotal_get regions (hy * hMapWidth + hx) Htotal)
    as (region & Hregion & Hrange).
  { rewrite hMapSize_eq. unfold hMapWidth, hMapHeight in *. lia. }
  rewrite Hregion in Hrun. cbn [mbind option_bind] in Hrun.
  rewrite option_guard_True in Hrun by done. cbn [mbind option_bind] in Hrun.
  destruct (Hbounds region Hrange)
    as (hs & n & Hhs & Hn & Hcount & Hsx & Hsy & _).
  rewrite Hhs in Hrun. cbn [mbind option_bind] in Hrun.
  rewrite vset_Some in Hrun by lia. cbn [mbind option_bind] in Hrun.
  rewrite Hn in Hrun. cbn [mbind option_bind] in Hrun.
  rewrite vset_Some in Hrun by lia. cbn [mbind option_bind] in Hrun.
  injection Hrun as <-. intros r Hr. cbn [fst snd].
  destruct (Hexact r Hr) as (hs' & n' & Hhs' & Hn' & En & Ex & Ey).
  rewrite !sumCells_next by lia. unfold ofRegion at 2 4 6.
  destruct (decide (r = region)) as [->|Hne].
  - rewrite !vget_insert_eq by lia. eexists _, _.
    split; [done|]. split; [done|]. cbn [fst snd].
    rewrite bool_decide_eq_true_2 by done.
    assert (hs' = hs) as -> by congruence. assert (n' = n) as -> by congruence.
    unfold hMapWidth, hMapHeight in *.
    rewrite !toSint16_small by lia. lia.
  - rewrite !vget_insert_ne by lia. exists hs', n'.
    split; [done|]. split; [done|].
    rewrite bool_decide_eq_false_2 by congruence. lia.
Qed.

Lemma sumsExact_column regions hx st :
  0 ≤ hx →
  sumsExact regions hx hMapHeight st → sumsExact regions (hx + 1) 0 st.
Proof.
  intros Hhx Hexact r Hr.
  destruct (Hexact r Hr) as (hs & n & Hhs & Hn & En & Ex & Ey).
  exists hs, n. rewrite !sumCells_column by done. done.
Qed.

Lemma sumsState_column regions hx st :
  sumsState regions hx hMapHeight st → sumsState regions (hx + 1) 0 st.
Proof.
  intros (HlenS & HlenN & Hall). split; [done|]. split; [done|].
  intros r Hr.
  destruct (Hall r Hr) as (hs & n & Hhs & Hn & Hcount & Hsx & Hsy & Hpos).
  exists hs, n. split; [done|]. split; [done|].
  split; [unfold hMapHeight in *; lia|]. split; [done|]. split; [done|].
  rewrite Hpos. split; intros (x & y & Hcell & Hget); exists x, y;
    (split; [by apply cellDone_column|done]).
Qed.

(** The accumulation loops of [hGetCenters], with the exact sums. *)
Lemma hGetCenters_sums_exact regions :
  regionsTotal regions →
  ∃ st,
    for_range 0 hMapWidth
      (λ hx, for_range 0 hMapHeight (hGetCentersCell regions hx))
      (replicate (Z.to_nat numRegions) (0, 0),
       replicate (Z.to_nat numRegions) 0) = Some st ∧
    sumsState regions hMapWidth 0 st ∧
    sumsExact regions hMapWidth 0 st.
Proof.
  intros Htotal.
  destruct (hGetCenters_sums regions Htotal) as (st0 & Hrun0 & Hst0).
  apply (for_range_inv
    (λ hx st, sumsState regions hx 0 st ∧ sumsExact regions hx 0 st)).
  - unfold hMapWidth. lia.
  - split.
    + unfold sumsState. cbn [fst snd]. rewrite !length_replicate.
      split; [done|]. split; [done|]. intros r Hr.
      exists (0, 0), 0. rewrite !vget_replicate by lia. cbn [fst snd].
      split; [done|]. split; [done|]. unfold hMapWidth, hMapHeight.
      split; [lia|]. split; [lia|]. split; [lia|]. split; [lia|].
      intros (x & y & Hcell & _). unfold cellDone in Hcell. lia.
    + intros r Hr. exists (0, 0), 0. cbn [fst snd].
      rewrite !vget_replicate by lia. done.
  - intros hx st Hhx Hinv.
    destruct (for_range_inv
                (λ hy st', sumsState regions hx hy st' ∧
                           sumsExact regions hx hy st')
                (hGetCentersCell regions hx) 0 hMapHeight st)
      as (st' & Hrun & Hst' & Hexact').
    + unfold hMapHeight. lia.
    + done.
    + intros hy st1 Hhy Hinv1. by apply hGetCentersCell_exact.
    + exists st'. split; [done|]. split.
      * by apply sumsState_column.
      * apply sumsExact_column; [lia|done].
Qed.

(** [hGetCenters] with the exact centers. *)
Lemma hGetCenters_exact regions :
  regionsTotal regions →
  ∃ hCenters,
    hGetCenters regions = Some hCenters ∧
    Z.of_nat (length hCenters) = numRegions ∧
    ∀ r, 0 ≤ r < numRegions →
         vget hCenters r = Some (centerOfMass regions r).
Proof.
  intros Htotal. unfold hGetCenters.
  rewrite option_guard_True by apply Htotal. cbn [mbind option_bind].
  destruct (hGetCenters_sums_exact regions Htotal)
    as (st & -> & (HlenS & HlenN & Hst) & Hexact).
  cbn [mbind option_bind].
  destruct (for_range_inv
    (λ k (hCenters : list Point),
       Z.of_nat (length hCenters) = numRegions ∧
       (∀ r, 0 ≤ r < k → vget hCenters r = Some (centerOfMass regions r)) ∧
       (∀ r, k ≤ r < numRegions → vget hCenters r = Some hInvalid))
    (λ r hCenters,
       n ← vget st.2 r;
       if 0 <? n then
         hs ← vget st.1 r;
         vset hCenters r (toSint16 (hs.1 `quot` n), toSint16 (hs.2 `quot` n))
       else Some hCenters)
    0 numRegions (replicate (Z.to_nat numRegions) hInvalid))
    as (hCenters & Hrun & Hlen & Hlow & _).
  - unfold numRegions. lia.
  - rewrite length_replicate. split; [done|]. split; [intros r Hr; lia|].
    intros r Hr. apply vget_replicate. lia.
  - intros k hCenters Hk (Hlen & Hlow & Hhigh).
    destruct (Hst k Hk) as (hs & n & Hhs & Hn & Hcount & Hsx & Hsy & _).
    destruct (Hexact k Hk) as (hs' & n' & Hhs' & Hn' & En & Ex & Ey).
    assert (hs' = hs) as -> by congruence. assert (n' = n) as -> by congruence.
    rewrite Hn. cbn [mbind option_bind].
    assert (centerOfMass regions k
            = if 0 <? n then (hs.1 `quot` n, hs.2 `quot` n) else hInvalid)
      as Hcenter.
    { unfold centerOfMass, regionCount, regionSumX, regionSumY.
      rewrite <- En, <- Ex, <- Ey.
      destruct (Z.eqb_spec n 0), (Z.ltb_spec 0 n); try done; lia. }
    destruct (Z.ltb_spec 0 n) as [Hnpos|Hnzero].
    + rewrite Hhs. cbn [mbind option_bind]. rewrite vset_Some by lia.
      eexists. split; [done|]. split; [by rewrite length_insert|]. split.
      * intros r Hr. destruct (decide (r = k)) as [->|Hne].
        -- rewrite vget_insert_eq by lia. rewrite Hcenter.
           unfold hMapWidth, hMapHeight in *.
           assert (0 ≤ hs.1 `quot` n ≤ 15).
           { split; [apply Z.quot_pos; lia|].
             apply Z.quot_le_upper_bound; lia. }
           assert (0 ≤ hs.2 `quot` n ≤ 8).
           { split; [apply Z.quot_pos; lia|].
             apply Z.quot_le_upper_bound; lia. }
           rewrite !toSint16_small by lia. done.
        -- rewrite vget_insert_ne by lia. apply Hlow. lia.
      * intros r Hr. rewrite vget_insert_ne by lia. apply Hhigh. lia.
    + eexists. split; [done|]. split; [done|]. split.
      * intros r Hr. destruct (decide (r = k)) as [->|Hne].
        -- rewrite Hcenter. apply Hhigh. lia.
        -- apply Hlow. lia.
      * intros r Hr. apply Hhigh. lia.
  - exists hCenters. done.
Qed.

(** X4. For a total assignment [hGetCenters] returns, for every region,
    its center of mass with both coordinates rounded towards zero, and the
    invalid hex for a region without hexes. *)
Theorem hGetCenters_centerOfMass (regions : list Z) :
  regionsTotal regions →
  ∃ hCenters,
    hGetCenters regions = Some hCenters ∧
    Z.of_nat (length hCenters) = numRegions ∧
    ∀ r, 0 ≤ r < numRegions →
         vget hCenters r = Some (centerOfMass regions r).
Proof. apply hGetCenters_exact. Qed.

Lemma hGetCenters_centerOfMass_witness :
  ∃ hCenters,
    hGetCenters regionsThree = Some hCenters ∧
    Z.of_nat (length hCenters) = numRegions ∧
    ∀ r, 0 ≤ r < numRegions →
         vget hCenters r = Some (centerOfMass regionsThree r).
Proof.
  apply (hGetCenters_centerOfMass regionsThree).
  split; [reflexivity|].
  apply (bool_decide_unpack _). vm_compute. exact I.
Defined.

Example hGetCenters_regionsThree :
  hGetCenters regionsThree
  = Some ([(3, 4); (11, 2); (11, 6)] ++ replicate 15 hInvalid).
Proof. vm_compute. reflexivity. Qed.

(** ** What the assertions require *)

Lemma for_range_Some_all {St} (P : Z → Prop)
    (body : Z → St → option St) lo hi s0 s' :
  for_range lo hi body s0 = Some s' →
  lo ≤ hi →
  (∀ i s s1, lo ≤ i < hi → body i s = Some s1 → P i) →
  ∀ i, lo ≤ i < hi → P i.
Proof.
  intros Hrun Hle Hbody.
  apply (for_range_Some_inv (λ k _, ∀ i, lo ≤ i < k → P i) body lo hi s0 s');
    [done|done|intros i Hi; lia|].
  intros k s s1 Hk Hinv Hstep i Hi.
  destruct (decide (i = k)) as [->|Hne].
  - by apply (Hbody k s s1).
  - apply Hinv. lia.
Qed.

Lemma for_each_Some_all {A St} (P : A → Prop)
    (body : A → St → option St) (l : list A) s0 s' :
  (∀ x s s1, body x s = Some s1 → P x) →
  for_each l body s0 = Some s' →
  Forall P l.
Proof.
  intros Hbody. revert s0. induction l as [|x l IH]; intros s0 Hrun.
  - apply Forall_nil_2.
  - simpl in Hrun. destruct (body x s0) as [s1|] eqn:Hx; [|done].
    apply Forall_cons. split; [by apply (Hbody x s0 s1)|].
    by apply (IH s1).
Qed.

Lemma hGetCentersCell_Some_inv regions hx hy st st' :
  hGetCentersCell regions hx hy st = Some st' →
  ∃ region, vget regions (hy * hMapWidth + hx) = Some region ∧
            0 ≤ region < numRegions.
Proof.
  unfold hGetCentersCell. intros Hrun.
  destruct (vget regions (hy * hMapWidth + hx)) as [region|]; [|done].
  cbn [mbind option_bind] in Hrun. exists region. split; [done|].
  case_guard; [done|discriminate].
Qed.

(** A vector whose hexes, visited column by column, all hold a region
    number is a total assignment. *)
Lemma regionsTotal_cells regions :
  Z.of_nat (length regions) = hMapSize →
  (∀ hx hy, 0 ≤ hx < hMapWidth → 0 ≤ hy < hMapHeight →
     ∃ region, vget regions (hy * hMapWidth + hx) = Some region ∧
               0 ≤ region < numRegions) →
  regionsTotal regions.
Proof.
  intros Hlen Hcells. split; [done|]. apply Forall_lookup. intros k r Hk.
  pose proof (lookup_lt_Some _ _ _ Hk) as Hlt.
  assert (0 ≤ Z.of_nat k < hMapSize) as Hi by lia.
  destruct (cellDone_all _ Hi) as [Hcell Hidx].
  destruct (Hcells (hexFromAry (Z.of_nat k)).1 (hexFromAry (Z.of_nat k)).2)
    as (region & Hregion & Hrange).
  - unfold cellDone in Hcell. lia.
  - unfold cellDone in Hcell. lia.
  - rewrite Hidx in Hregion. apply vget_Some in Hregion as [_ Hregion].
    rewrite Nat2Z.id in Hregion. congruence.
Qed.

(** X5. [hGetCenters] returns exactly on the vectors that pass its two
    assertions everywhere: the vectors of [hMapSize] region numbers. *)
Theorem hGetCenters_returns_iff (regions : list Z) :
  is_Some (hGetCenters regions) ↔ regionsTotal regions.
Proof.
  split.
  - intros [hCenters Hrun]. unfold hGetCenters in Hrun.
    case_guard; [|discriminate].
    cbn [mbind option_bind mret option_ret] in Hrun.
    match type of Hrun with
    | (?loop ≫= _) = _ => destruct loop as [st|] eqn:Hloop; [|done]
    end.
    apply regionsTotal_cells; [done|]. intros hx hy Hhx Hhy.
    revert hx Hhx hy Hhy.
    apply (for_range_Some_all
      (λ hx, ∀ hy, 0 ≤ hy < hMapHeight →
         ∃ region, vget regions (hy * hMapWidth + hx) = Some region ∧
                   0 ≤ region < numRegions) _ _ _ _ _ Hloop);
      [unfold hMapWidth; lia|].
    intros hx s s1 Hhx Hinner.
    apply (for_range_Some_all _ _ _ _ _ _ Hinner); [unfold hMapHeight; lia|].
    intros hy s2 s3 Hhy Hcell. by apply (hGetCentersCell_Some_inv _ _ _ s2 s3).
  - intros Htotal. destruct (hGetCenters_spec regions Htotal) as (hCenters & -> & _).
    done.
Qed.

(** X6. [regionNeighbors] returns exactly on the vectors that pass its two
    assertions everywhere: the vectors of [hMapSize] region numbers. *)
Theorem regionNeighbors_returns_iff (regions : list Z) :
  is_Some (regionNeighbors regions) ↔ regionsTotal regions.
Proof.
  split.
  - intros [adj Hrun]. unfold regionNeighbors in Hrun.
    case_guard; [|discriminate].
    cbn [mbind option_bind mret option_ret] in Hrun.
    split; [done|]. apply Forall_lookup. intros k r Hk.
    pose proof (lookup_lt_Some _ _ _ Hk) as Hlt.
    apply (for_range_Some_all
      (λ i, ∀ r, vget regions i = Some r → 0 ≤ r < numRegions)
      _ _ _ _ _ Hrun) with (i := Z.of_nat k) (r := r);
      [rewrite hMapSize_eq; lia| |lia|].
    + intros i s s1 Hi Hcell r' Hr'. unfold regionNeighborsCell in Hcell.
      rewrite Hr' in Hcell. cbn [mbind option_bind] in Hcell.
      case_guard; [done|discriminate].
    + apply vget_Some. rewrite Nat2Z.id. split; [lia|done].
  - intros Htotal. destruct (regionNeighbors_spec regions Htotal) as (adj & -> & _).
    done.
Qed.

Lemma forZ_ext {St} (body body' : Z → St → option St) n lo s :
  (∀ i s1, lo ≤ i < lo + Z.of_nat n → body i s1 = body' i s1) →
  forZ n lo body s = forZ n lo body' s.
Proof.
  revert lo s. induction n as [|n IH]; intros lo s Hext; [done|].
  simpl. rewrite Hext by lia. destruct (body' lo s) as [s1|]; [|done].
  simpl. apply IH. intros i s2 Hi. apply Hext. lia.
Qed.

Lemma for_range_ext {St} (body body' : Z → St → option St) lo hi s :
  (∀ i s1, lo ≤ i < hi → body i s1 = body' i s1) →
  for_range lo hi body s = for_range lo hi body' s.
Proof.
  intros Hext. unfold for_range. apply forZ_ext.
  intros i s1 Hi. apply Hext. lia.
Qed.

(** [assignTerrain] reads the first [numRegions] neighbor lists only. *)
Lemma assignTerrain_take adj :
  assignTerrain adj = assignTerrain (take (Z.to_nat numRegions) adj).
Proof.
  unfold assignTerrain. apply for_range_ext. intros r terrain Hr.
  unfold assignTerrainStep.
  replace (vget (take (Z.to_nat numRegions) adj) r) with (vget adj r); [done|].
  unfold vget. case_guard; [|done]. cbn [mbind option_bind].
  symmetry. apply lookup_take_lt. lia.
Qed.

(** X7. For an adjacency list with a neighbor list for each of the
    [numRegions] regions, [assignTerrain] returns exactly when the first
    [numRegions] lists pass the assertion, that is hold region numbers
    only; what further lists hold has no effect. *)
Theorem assignTerrain_returns_iff (adj : list (list Z)) :
  numRegions ≤ Z.of_nat (length adj) →
  (is_Some (assignTerrain adj) ↔
   ∀ r nbrs, 0 ≤ r < numRegions → vget adj r = Some nbrs →
             Forall (λ rNeighbor, 0 ≤ rNeighbor < numRegions) nbrs) ∧
  assignTerrain adj = assignTerrain (take (Z.to_nat numRegions) adj).
Proof.
  intros Hlen. split; [|apply assignTerrain_take]. split.
  - intros [terrain Hrun]. unfold assignTerrain in Hrun.
    pose proof (for_range_Some_all
      (λ r, ∃ nbrs, vget adj r = Some nbrs ∧
                    Forall (λ rNeighbor, 0 ≤ rNeighbor < numRegions) nbrs)
      _ _ _ _ _ Hrun) as Hall.
    assert (∀ r, 0 ≤ r < numRegions →
              ∃ nbrs, vget adj r = Some nbrs ∧
                      Forall (λ rNeighbor, 0 ≤ rNeighbor < numRegions) nbrs)
      as Hlists.
    { apply Hall; [unfold numRegions; lia|].
      intros r s s1 Hr Hstep. unfold assignTerrainStep in Hstep.
      destruct (vget adj r) as [nbrs|]; [|done].
      cbn [mbind option_bind] in Hstep. exists nbrs. split; [done|].
      destruct (assignedTerrainsOf s nbrs) as [bits|] eqn:Hbits; [|done].
      unfold assignedTerrainsOf in Hbits.
      eapply for_each_Some_all; [|exact Hbits].
      intros n b b' Hn. cbv beta in Hn. case_guard; [done|discriminate]. }
    intros r nbrs Hr Hnbrs. destruct (Hlists r Hr) as (nbrs' & Hnbrs' & Hin).
    congruence.
  - intros Hlists. rewrite assignTerrain_take.
    assert (adjOverRegions (take (Z.to_nat numRegions) adj)) as Hadj.
    { split; [rewrite length_take; unfold numRegions in *; lia|].
      apply Forall_lookup. intros k nbrs Hk.
      apply lookup_take_Some in Hk as [Hk Hlt].
      apply (Hlists (Z.of_nat k)); [lia|].
      apply vget_Some. rewrite Nat2Z.id. split; [lia|done]. }
    destruct (assignTerrain_loop _ 0 numRegions terrainInit Hadj)
      as (terrain & Hrun & _);
      [unfold numRegions; lia|lia|apply terrainState_init|].
    unfold assignTerrain. fold terrainInit. rewrite Hrun. done.
Qed.

Lemma assignTerrain_returns_iff_witness :
  (is_Some (assignTerrain (adjTriangle ++ [[99]])) ↔
   ∀ r nbrs, 0 ≤ r < numRegions →
             vget (adjTriangle ++ [[99]]) r = Some nbrs →
             Forall (λ rNeighbor, 0 ≤ rNeighbor < numRegions) nbrs) ∧
  assignTerrain (adjTriangle ++ [[99]])
  = assignTerrain (take (Z.to_nat numRegions) (adjTriangle ++ [[99]])).
Proof.
  apply (assignTerrain_returns_iff (adjTriangle ++ [[99]])).
  unfold numRegions. simpl. lia.
Defined.

Example assignTerrain_further_list :
  assignTerrain (adjTriangle ++ [[99]]) = Some ([0; 1; 2] ++ replicate 15 0).
Proof. reflexivity. Qed.

(** ** Neighbors and distances *)

(** [hexDist] between hexes of the map, the conversions left out. *)
Lemma hexDist_on_map x1 y1 x2 y2 :
  hexInBounds (x1, y1) → hexInBounds (x2, y2) →
  hexDist (x1, y1) (x2, y2)
  = Z.max (Z.abs (x1 - x2))
      (Z.abs (y1 - y2)
       + (if (y1 <? y2) && (x1 `rem` 2 =? 0) && (x2 `rem` 2 =? 1)
             || (y2 <? y1) && (x1 `rem` 2 =? 1) && (x2 `rem` 2 =? 0)
          then 1 else 0)
       + Z.abs (x1 - x2) `quot` 2).
Proof.
  unfold hexInBounds, hMapWidth, hMapHeight. cbn [fst snd].
  intros [Hx1 Hy1] [Hx2 Hy2]. unfold hexDist, hInvalid.
  rewrite !bool_decide_eq_false_2 by (intros [= ? ?]; lia).
  cbn [orb fst snd]. rewrite Z.gtb_ltb.
  rewrite (toSint16_small (Z.abs (x1 - x2))) by lia.
  rewrite (toSint16_small (Z.abs (y1 - y2))) by lia.
  match goal with |- context [if ?b then 1 else 0] => destruct b end;
    rewrite toSint16_small by lia; done.
Qed.

Lemma parity_split x :
  0 ≤ x → ∃ k p, x = 2 * k + p ∧ 0 ≤ k ∧ (p = 0 ∨ p = 1) ∧
                 x `rem` 2 = p ∧ x `quot` 2 = k.
Proof. intros Hx. exists (x `quot` 2), (x `rem` 2). lia. Qed.

(** On the map [hexDist] is the distance of cube coordinates. *)
Lemma hexDist_cubeDist h1 h2 :
  hexInBounds h1 → hexInBounds h2 → hexDist h1 h2 = cubeDist h1 h2.
Proof.
  destruct h1 as [x1 y1], h2 as [x2 y2].
  intros H1 H2. rewrite hexDist_on_map by done.
  unfold hexInBounds, hMapWidth, hMapHeight, cubeDist, cubeR in *.
  cbn [fst snd] in *.
  destruct (parity_split x1) as (k1 & p1 & E1 & Hk1 & Hp1 & -> & ->); [lia|].
  destruct (parity_split x2) as (k2 & p2 & E2 & Hk2 & Hp2 & -> & ->); [lia|].
  subst x1 x2.
  destruct Hp1 as [-> | ->], Hp2 as [-> | ->];
    destruct (Z.lt_trichotomy y1 y2) as [Hy|[Hy|Hy]];
    destruct (Z.le_gt_cases k1 k2) as [Hk|Hk];
    case_Zb; lia.
Qed.

Lemma cubeDist_triangle h1 h2 h3 :
  cubeDist h1 h3 ≤ cubeDist h1 h2 + cubeDist h2 h3.
Proof.
  unfold cubeDist. generalize (cubeR h1) (cubeR h2) (cubeR h3).
  generalize h1.1 h2.1 h3.1. intros x1 x2 x3 r1 r2 r3.
  assert (Z.abs (x1 - x3) ≤ Z.abs (x1 - x2) + Z.abs (x2 - x3)) by lia.
  assert (Z.abs (r1 - r3) ≤ Z.abs (r1 - r2) + Z.abs (r2 - r3)) by lia.
  assert (Z.abs (x1 + r1 - (x3 + r3))
          ≤ Z.abs (x1 + r1 - (x2 + r2)) + Z.abs (x2 + r2 - (x3 + r3))) by lia.
  repeat match goal with
    | |- context [Z.abs ?a] => generalize dependent (Z.abs a); intros
    end.
  lia.
Qed.

(** X8. On the map [hexDist] is a distance: it is at least 0 and at most
    16, it is 0 between a hex and itself only, and it satisfies the
    triangle inequality. *)
Theorem hexDist_metric_on_map (h1 h2 h3 : Point) :
  hexInBounds h1 → hexInBounds h2 → hexInBounds h3 →
  0 ≤ hexDist h1 h2 ≤ 16 ∧
  (hexDist h1 h2 = 0 ↔ h1 = h2) ∧
  hexDist h1 h3 ≤ hexDist h1 h2 + hexDist h2 h3.
Proof.
  intros H1 H2 H3. rewrite !hexDist_cubeDist by done.
  split; [|split].
  - destruct h1 as [x1 y1], h2 as [x2 y2].
    unfold hexInBounds, hMapWidth, hMapHeight, cubeDist, cubeR in *.
    cbn [fst snd] in *. lia.
  - destruct h1 as [x1 y1], h2 as [x2 y2].
    unfold hexInBounds, hMapWidth, hMapHeight, cubeDist, cubeR in *.
    cbn [fst snd] in *. split.
    + intros Hzero. assert (x1 = x2) as -> by lia. f_equal. lia.
    + intros [= -> ->]. lia.
  - apply cubeDist_triangle.
Qed.

Lemma hexDist_metric_on_map_witness :
  0 ≤ hexDist (1, 1) (3, 3) ≤ 16 ∧
  (hexDist (1, 1) (3, 3) = 0 ↔ (1, 1) = (3, 3)) ∧
  hexDist (1, 1) (15, 8) ≤ hexDist (1, 1) (3, 3) + hexDist (3, 3) (15, 8).
Proof.
  apply (hexDist_metric_on_map (1, 1) (3, 3) (15, 8));
    unfold hexInBounds, hMapWidth, hMapHeight; simpl; lia.
Defined.

Lemma aryFromHex_hexFromAry a :
  0 ≤ a < hMapSize → aryFromHex (hexFromAry a) = a.
Proof.
  rewrite hMapSize_eq. intros Ha. rewrite hexFromAry_valid by done.
  unfold aryFromHex, hMapWidth. cbn [fst snd]. lia.
Qed.

Lemma hexFromAry_aryFromHex h :
  hexInBounds h →
  0 ≤ aryFromHex h < hMapSize ∧ hexFromAry (aryFromHex h) = h.
Proof.
  destruct h as [hx hy]. rewrite hMapSize_eq.
  unfold hexInBounds, aryFromHex, hMapWidth, hMapHeight. cbn [fst snd].
  intros [Hx Hy]. split; [lia|]. rewrite hexFromAry_valid by lia.
  f_equal; lia.
Qed.

(** The neighbor in a direction is the hex one step away in that
    direction. *)
Lemma aryGetNeighbor_step c dir n :
  0 ≤ c < hMapSize → 0 ≤ n < hMapSize → 0 ≤ dir < 6 →
  aryGetNeighbor c dir = Some n ↔
  (hexFromAry n).1 = (hexFromAry c).1 + dirColumnStep dir ∧
  (hexFromAry n).2 = (hexFromAry c).2 + dirRowStep dir (hexFromAry c).1.
Proof.
  rewrite hMapSize_eq. intros Hc Hn Hdir.
  rewrite aryGetNeighbor_dir by done. rewrite !hexFromAry_valid by done.
  cbn [fst snd]. unfold dirColumnStep, dirRowStep, diagColumnStep, diagRowStep.
  case_dir dir; cbn [orb];
    (split; [intros [= Heq]|intros Heq; f_equal]); revert Heq;
    case_Zb; lia.
Qed.

Lemma dirStep_range dir hx :
  0 ≤ dir < 6 →
  -1 ≤ dirColumnStep dir ≤ 1 ∧ -1 ≤ dirRowStep dir hx ≤ 1.
Proof.
  intros Hdir. unfold dirColumnStep, dirRowStep, diagColumnStep, diagRowStep.
  case_dir dir; cbn [orb]; case_Zb; lia.
Qed.

(** X9. For a hex of the map and a direction from 0 to 5,
    [aryGetNeighbor] returns the hex one step away in that direction when
    that hex is on the map, and [-1] exactly when it is off the map: there
    is no wrap-around and no neighbor is lost. *)
Theorem aryGetNeighbor_offset (c dir : Z) :
  0 ≤ c < hMapSize →
  0 ≤ dir < 6 →
  let target := ((hexFromAry c).1 + dirColumnStep dir,
                 (hexFromAry c).2 + dirRowStep dir (hexFromAry c).1) in
  aryGetNeighbor c dir
  = Some (if bool_decide (hexInBounds target) then aryFromHex target else -1).
Proof.
  intros Hc Hdir target.
  destruct (decide (hexInBounds target)) as [Hin|Hout].
  - rewrite bool_decide_eq_true_2 by done.
    destruct (hexFromAry_aryFromHex target Hin) as [Hrange Hback].
    apply aryGetNeighbor_step; [done..|]. rewrite Hback. done.
  - rewrite bool_decide_eq_false_2 by done.
    destruct (aryGetNeighbor_total c dir Hdir) as [n Hn]. rewrite Hn. f_equal.
    destruct (aryGetNeighbor_range c dir n Hc Hn) as [?|Hrange]; [done|].
    destruct Hout. pose proof (hexFromAry_in_bounds n Hrange) as Hbounds.
    apply aryGetNeighbor_step in Hn as [H1 H2]; [|done..].
    unfold target. rewrite <- H1, <- H2. by rewrite <- surjective_pairing.
Qed.

Lemma aryGetNeighbor_offset_witness :
  let target := ((hexFromAry 15).1 + dirColumnStep 1,
                 (hexFromAry 15).2 + dirRowStep 1 (hexFromAry 15).1) in
  aryGetNeighbor 15 1
  = Some (if bool_decide (hexInBounds target) then aryFromHex target else -1).
Proof.
  apply (aryGetNeighbor_offset 15 1).
  - rewrite hMapSize_eq. lia.
  - lia.
Defined.

(** Hexes of the map at distance 1 are one step apart in some direction,
    and conversely. *)
Lemma hexDist_one_step x1 y1 x2 y2 :
  hexInBounds (x1, y1) → hexInBounds (x2, y2) →
  hexDist (x1, y1) (x2, y2) = 1 ↔
  ∃ dir, 0 ≤ dir < 6 ∧
         x2 = x1 + dirColumnStep dir ∧ y2 = y1 + dirRowStep dir x1.
Proof.
  intros H1 H2. rewrite hexDist_cubeDist by done.
  unfold hexInBounds, hMapWidth, hMapHeight, cubeDist, cubeR in *.
  cbn [fst snd] in *.
  destruct (parity_split x1) as (k1 & p1 & E1 & Hk1 & Hp1 & Hr1 & Hq1); [lia|].
  destruct (parity_split x2) as (k2 & p2 & E2 & Hk2 & Hp2 & Hr2 & Hq2); [lia|].
  rewrite Hq1, Hq2. split.
  - intros Hone.
    assert (x2 = x1 ∨ x2 = x1 + 1 ∨ x2 = x1 - 1) as Hx by lia.
    assert (y2 = y1 ∨ y2 = y1 + 1 ∨ y2 = y1 - 1) as Hy by lia.
    unfold dirColumnStep, dirRowStep, diagColumnStep, diagRowStep.
    rewrite Hr1.
    destruct Hp1 as [-> | ->], Hp2 as [-> | ->],
      Hx as [Hx|[Hx|Hx]], Hy as [Hy|[Hy|Hy]];
      first [ exfalso; lia
            | exists 0; cbn; lia | exists 1; cbn; lia | exists 2; cbn; lia
            | exists 3; cbn; lia | exists 4; cbn; lia | exists 5; cbn; lia ].
  - intros (dir & Hdir & Hx & Hy). revert Hx Hy.
    unfold dirColumnStep, dirRowStep, diagColumnStep, diagRowStep.
    rewrite Hr1.
    case_dir dir; cbn [orb]; destruct Hp1 as [-> | ->], Hp2 as [-> | ->];
      cbn; lia.
Qed.

(** X10. Two hexes of the map are neighbors exactly when their distance
    is 1: [aryGetNeighbor] leads from one to the other in some direction
    if and only if [hexDist] of their coordinates is 1. *)
Theorem aryGetNeighbor_iff_hexDist_1 (c n : Z) :
  0 ≤ c < hMapSize →
  0 ≤ n < hMapSize →
  (∃ dir, aryGetNeighbor c dir = Some n) ↔
  hexDist (hexFromAry c) (hexFromAry n) = 1.
Proof.
  intros Hc Hn.
  pose proof (hexFromAry_in_bounds c Hc) as Hbc.
  pose proof (hexFromAry_in_bounds n Hn) as Hbn.
  rewrite (surjective_pairing (hexFromAry c)) in Hbc |- *.
  rewrite (surjective_pairing (hexFromAry n)) in Hbn |- *.
  rewrite hexDist_one_step by done. cbn [fst snd]. split.
  - intros (dir & Hdir).
    assert (0 ≤ dir < 6) as Hrange.
    { unfold aryGetNeighbor in Hdir. case_guard; [done|discriminate]. }
    exists dir. split; [done|]. by apply aryGetNeighbor_step.
  - intros (dir & Hrange & Hstep). exists dir. by apply aryGetNeighbor_step.
Qed.

Lemma aryGetNeighbor_iff_hexDist_1_witness :
  (∃ dir, aryGetNeighbor 17 dir = Some 34) ↔
  hexDist (hexFromAry 17) (hexFromAry 34) = 1.
Proof.
  apply (aryGetNeighbor_iff_hexDist_1 17 34); rewrite hMapSize_eq; lia.
Defined.

Lemma dirStep_inj d1 d2 hx :
  0 ≤ d1 < 6 → 0 ≤ d2 < 6 →
  dirColumnStep d1 = dirColumnStep d2 →
  dirRowStep d1 hx = dirRowStep d2 hx →
  d1 = d2.
Proof.
  intros H1 H2. unfold dirColumnStep, dirRowStep, diagColumnStep, diagRowStep.
  case_dir d1; case_dir d2; cbn [orb]; case_Zb; lia.
Qed.

(** Different directions lead to different neighbors. *)
Lemma aryGetNeighbor_inj a d1 d2 n :
  0 ≤ a < hMapSize →
  aryGetNeighbor a d1 = Some n → aryGetNeighbor a d2 = Some n → n ≠ -1 →
  d1 = d2.
Proof.
  intros Ha H1 H2 Hne.
  assert (0 ≤ d1 < 6) as Hd1.
  { unfold aryGetNeighbor in H1. case_guard; [done|discriminate]. }
  assert (0 ≤ d2 < 6) as Hd2.
  { unfold aryGetNeighbor in H2. case_guard; [done|discriminate]. }
  destruct (aryGetNeighbor_range a d1 n Ha H1) as [?|Hn]; [done|].
  apply aryGetNeighbor_step in H1 as [Hx1 Hy1]; [|done..].
  apply aryGetNeighbor_step in H2 as [Hx2 Hy2]; [|done..].
  apply (dirStep_inj d1 d2 (hexFromAry a).1); [done|done|lia|lia].
Qed.

Lemma aryNeighbors_NoDup a :
  0 ≤ a < hMapSize →
  ∃ av, aryNeighbors a = Some av ∧ NoDup av ∧ (length av ≤ 6)%nat.
Proof.
  intros Ha. unfold aryNeighbors.
  destruct (for_range_inv
    (λ k (av : list Z),
       NoDup av ∧ Z.of_nat (length av) ≤ k ∧
       ∀ x, x ∈ av →
            ∃ d, 0 ≤ d < k ∧ aryGetNeighbor a d = Some x ∧ x ≠ -1)
    (λ dir av, aNeighbor ← aryGetNeighbor a dir;
               Some (if aNeighbor =? -1 then av else av ++ [aNeighbor]))
    0 6 []) as (av & Hav & Hnodup & Hlen & _).
  - lia.
  - split; [apply NoDup_nil_2|]. split; [simpl; lia|].
    intros x Hx. by apply elem_of_nil in Hx.
  - intros d av Hd (Hnodup & Hlen & Hmem).
    destruct (aryGetNeighbor_total a d) as [n Hn]; [lia|].
    rewrite Hn. cbn [mbind option_bind]. eexists. split; [done|].
    destruct (Z.eqb_spec n (-1)) as [->|Hne].
    + split; [done|]. split; [lia|]. intros x Hx.
      destruct (Hmem x Hx) as (d' & ? & ?). exists d'. split; [lia|done].
    + split; [|split].
      * apply NoDup_app. split; [done|]. split; [|apply NoDup_singleton].
        intros x Hx ->%list_elem_of_singleton.
        destruct (Hmem n Hx) as (d' & Hd' & Hn' & _).
        pose proof (aryGetNeighbor_inj a d' d n Ha Hn' Hn Hne). lia.
      * rewrite length_app. simpl. lia.
      * intros x [Hx| ->%list_elem_of_singleton]%elem_of_app.
        -- destruct (Hmem x Hx) as (d' & ? & ?). exists d'. split; [lia|done].
        -- exists d. split; [lia|done].
  - exists av. split; [done|]. split; [done|]. lia.
Qed.

(** The hexes of [aryNeighbors] are the hexes of the map at distance 1. *)
Lemma aryNeighbors_hexDist a av n :
  0 ≤ a < hMapSize →
  aryNeighbors a = Some av →
  n ∈ av ↔
  0 ≤ n < hMapSize ∧ hexDist (hexFromAry a) (hexFromAry n) = 1.
Proof.
  intros Ha Hav.
  destruct (aryNeighbors_spec a) as (av' & Hav' & Hspec).
  rewrite Hav in Hav'. injection Hav' as <-. rewrite Hspec. split.
  - intros (dir & Hdir & Hn & Hne).
    destruct (aryGetNeighbor_range a dir n Ha Hn) as [?|Hrange]; [done|].
    split; [done|].
    pose proof (hexFromAry_in_bounds a Ha) as Hba.
    pose proof (hexFromAry_in_bounds n Hrange) as Hbn.
    rewrite (surjective_pairing (hexFromAry a)) in Hba |- *.
    rewrite (surjective_pairing (hexFromAry n)) in Hbn |- *.
    apply hexDist_one_step; [done..|]. exists dir. split; [done|].
    by apply aryGetNeighbor_step in Hn.
  - intros [Hrange Hone].
    pose proof (hexFromAry_in_bounds a Ha) as Hba.
    pose proof (hexFromAry_in_bounds n Hrange) as Hbn.
    rewrite (surjective_pairing (hexFromAry a)) in Hba, Hone.
    rewrite (surjective_pairing (hexFromAry n)) in Hbn, Hone.
    apply hexDist_one_step in Hone as (dir & Hdir & Hstep); [|done..].
    exists dir. split; [done|]. split; [|lia].
    by apply aryGetNeighbor_step.
Qed.

(** Hexes that exist one step away in given directions are in
    [aryNeighbors], each direction with its own hex. *)
Lemma aryNeighbors_holds a av dirs :
  0 ≤ a < hMapSize →
  aryNeighbors a = Some av →
  NoDup av →
  NoDup dirs →
  (∀ dir, dir ∈ dirs →
     0 ≤ dir < 6 ∧
     hexInBounds ((hexFromAry a).1 + dirColumnStep dir,
                  (hexFromAry a).2 + dirRowStep dir (hexFromAry a).1)) →
  (length dirs ≤ length av)%nat.
Proof.
  intros Ha Hav Hnodup Hdirs Hin.
  destruct (aryNeighbors_spec a) as (av' & Hav' & Hspec).
  rewrite Hav in Hav'. injection Hav' as <-.
  set (target dir := aryFromHex
         ((hexFromAry a).1 + dirColumnStep dir,
          (hexFromAry a).2 + dirRowStep dir (hexFromAry a).1)).
  assert (∀ dir, dir ∈ dirs →
            0 ≤ target dir < hMapSize ∧
            aryGetNeighbor a dir = Some (target dir)) as Htarget.
  { intros dir Hdir. destruct (Hin dir Hdir) as [Hrange Hbounds].
    destruct (hexFromAry_aryFromHex _ Hbounds) as [Hidx Hback].
    split; [done|]. apply aryGetNeighbor_step; [done..|].
    unfold target. rewrite Hback. done. }
  rewrite <- (length_fmap target dirs). apply submseteq_length.
  apply NoDup_submseteq.
  - apply NoDup_fmap_2_strong; [|done]. intros d1 d2 Hd1 Hd2 Heq.
    destruct (Htarget d1 Hd1) as [Hr1 Hn1].
    destruct (Htarget d2 Hd2) as [Hr2 Hn2].
    rewrite <- Heq in Hn2.
    apply (aryGetNeighbor_inj a d1 d2 (target d1)); [done..|lia].
  - intros n (dir & -> & Hdir)%list_elem_of_fmap.
    destruct (Htarget dir Hdir) as [Hr Hn]. apply Hspec.
    exists dir. split; [apply (Hin dir Hdir)|]. split; [done|lia].
Qed.

(** X11. For a hex of the map [aryNeighbors] returns, without
    repetition, exactly the hexes of the map at distance 1 from it: never
    the hex itself, between two and six of them, and six when the hex is
    not on the border of the map. *)
Theorem aryNeighbors_ring (a : Z) :
  0 ≤ a < hMapSize →
  ∃ av,
    aryNeighbors a = Some av ∧
    NoDup av ∧
    (∀ n, n ∈ av ↔
          0 ≤ n < hMapSize ∧ hexDist (hexFromAry a) (hexFromAry n) = 1) ∧
    (a ∉ av) ∧
    (2 ≤ length av ≤ 6)%nat ∧
    (0 < (hexFromAry a).1 < hMapWidth - 1 →
     0 < (hexFromAry a).2 < hMapHeight - 1 →
     length av = 6%nat).
Proof.
  intros Ha. destruct (aryNeighbors_NoDup a Ha) as (av & Hav & Hnodup & Hle).
  exists av. split; [done|]. split; [done|].
  split; [intros n; by apply aryNeighbors_hexDist|].
  pose proof (hexFromAry_in_bounds a Ha) as Hb.
  assert (∀ dirs, NoDup dirs →
            (∀ dir, dir ∈ dirs →
               0 ≤ dir < 6 ∧
               hexInBounds ((hexFromAry a).1 + dirColumnStep dir,
                            (hexFromAry a).2
                            + dirRowStep dir (hexFromAry a).1)) →
            (length dirs ≤ length av)%nat) as Hholds.
  { intros dirs. by apply aryNeighbors_holds. }
  split; [|split].
  - intros Hself. apply (aryNeighbors_hexDist a av a Ha Hav) in Hself as [_ Hone].
    rewrite (surjective_pairing (hexFromAry a)) in Hb, Hone.
    rewrite hexDist_cubeDist in Hone by done. unfold cubeDist in Hone. lia.
  - split; [|done].
    destruct (hexFromAry a) as [hx hy].
    unfold hexInBounds, hMapWidth, hMapHeight in *. cbn [fst snd] in *.
    destruct (parity_split hx) as (k & p & _ & _ & Hp & Hrem & _); [lia|].
    assert (∃ d1 d2, d1 ≠ d2 ∧
              ∀ dir, dir ∈ [d1; d2] →
                0 ≤ dir < 6 ∧
                (0 ≤ hx + dirColumnStep dir < 16 ∧
                 0 ≤ hy + dirRowStep dir hx < 9)) as (d1 & d2 & Hne & Hok).
    { unfold dirColumnStep, dirRowStep, diagColumnStep, diagRowStep.
      rewrite Hrem.
      destruct (decide (0 < hy)), (decide (hx < 15)), Hp as [-> | ->].
      - exists 0, 2. split; [done|]. intros dir [->|[->|[]%elem_of_nil]%elem_of_cons]%elem_of_cons; cbn; lia.
      - exists 0, 1. split; [done|]. intros dir [->|[->|[]%elem_of_nil]%elem_of_cons]%elem_of_cons; cbn; lia.
      - exists 0, 4. split; [done|]. intros dir [->|[->|[]%elem_of_nil]%elem_of_cons]%elem_of_cons; cbn; lia.
      - exists 0, 5. split; [done|]. intros dir [->|[->|[]%elem_of_nil]%elem_of_cons]%elem_of_cons; cbn; lia.
      - exists 3, 2. split; [done|]. intros dir [->|[->|[]%elem_of_nil]%elem_of_cons]%elem_of_cons; cbn; lia.
      - exists 3, 1. split; [done|]. intros dir [->|[->|[]%elem_of_nil]%elem_of_cons]%elem_of_cons; cbn; lia.
      - exists 3, 4. split; [done|]. intros dir [->|[->|[]%elem_of_nil]%elem_of_cons]%elem_of_cons; cbn; lia.
      - exists 3, 5. split; [done|]. intros dir [->|[->|[]%elem_of_nil]%elem_of_cons]%elem_of_cons; cbn; lia. }
    apply (Hholds [d1; d2]); [|done].
    apply NoDup_cons. split; [by intros ->%list_elem_of_singleton|].
    apply NoDup_singleton.
  - intros Hx Hy. apply Nat.le_antisymm; [done|].
    apply (Hholds [0; 1; 2; 3; 4; 5]).
    + apply (bool_decide_unpack _). reflexivity.
    + destruct (hexFromAry a) as [hx hy].
      unfold hexInBounds, hMapWidth, hMapHeight in *. cbn [fst snd] in *.
      intros dir Hdir. assert (0 ≤ dir < 6) as Hrange.
      { repeat (apply elem_of_cons in Hdir as [->|Hdir]; [lia|]).
        by apply elem_of_nil in Hdir. }
      split; [done|]. pose proof (dirStep_range dir hx Hrange). lia.
Qed.

Lemma aryNeighbors_ring_witness :
  ∃ av,
    aryNeighbors 17 = Some av ∧
    NoDup av ∧
    (∀ n, n ∈ av ↔
          0 ≤ n < hMapSize ∧ hexDist (hexFromAry 17) (hexFromAry n) = 1) ∧
    (17 ∉ av) ∧
    (2 ≤ length av ≤ 6)%nat ∧
    (0 < (hexFromAry 17).1 < hMapWidth - 1 →
     0 < (hexFromAry 17).2 < hMapHeight - 1 →
     length av = 6%nat).
Proof.
  apply (aryNeighbors_ring 17). rewrite hMapSize_eq. lia.
Defined.

(** ** Neighbors as coordinates *)

Lemma for_each_push {A B} (f : A → B) (l : list A) (acc : list B) :
  for_each l (λ x hv, Some (hv ++ [f x])) acc = Some (acc ++ (f <$> l)).
Proof.
  revert acc. induction l as [|x l IH]; intros acc; simpl.
  - by rewrite app_nil_r.
  - rewrite IH. by rewrite <- app_assoc.
Qed.

(** X12. [hexNeighbors] is [aryNeighbors] in coordinates, as the checks at
    the end of [SDL_main] assert: for a hex of the map both return as many
    entries, the entries of [hexNeighbors] are the coordinates of those of
    [aryNeighbors], in the same order, and convert back to them. *)
Theorem hexNeighbors_aryNeighbors (hex : Point) :
  hexInBounds hex →
  ∃ aryN hexN,
    aryNeighbors (aryFromHex hex) = Some aryN ∧
    hexNeighbors hex = Some hexN ∧
    length aryN = length hexN ∧
    hexN = hexFromAry <$> aryN ∧
    aryFromHex <$> hexN = aryN.
Proof.
  intros Hb. destruct (hexFromAry_aryFromHex hex Hb) as [Ha _].
  destruct (aryNeighbors_spec (aryFromHex hex)) as (aryN & HaryN & _).
  exists aryN, (hexFromAry <$> aryN). split; [done|].
  unfold hexNeighbors. rewrite HaryN. cbn [mbind option_bind].
  rewrite for_each_push. split; [done|].
  split; [by rewrite length_fmap|]. split; [done|].
  rewrite <- list_fmap_compose. rewrite <- (list_fmap_id aryN) at 2.
  apply list_fmap_ext. intros i n Hn. cbn.
  apply aryFromHex_hexFromAry.
  apply (aryNeighbors_range (aryFromHex hex) aryN); [done|done|].
  apply list_elem_of_lookup. eauto.
Qed.

Lemma hexNeighbors_aryNeighbors_witness :
  ∃ aryN hexN,
    aryNeighbors (aryFromHex (15, 0)) = Some aryN ∧
    hexNeighbors (15, 0) = Some hexN ∧
    length aryN = length hexN ∧
    hexN = hexFromAry <$> aryN ∧
    aryFromHex <$> hexN = aryN.
Proof.
  apply (hexNeighbors_aryNeighbors (15, 0)).
  unfold hexInBounds, hMapWidth, hMapHeight. simpl. lia.
Defined.

Example hexNeighbors_corner :
  hexNeighbors (15, 0) = Some [(15, 1); (14, 1); (14, 0)].
Proof. reflexivity. Qed.

(** ** Relaxation rounds *)

(** X13. After every relaxation round of [rGenerate] the centers are the
    centers of mass of the regions of that round, and these regions are
    the Voronoi cells of the centers of the round before (of the seeds in
    the first round). *)
Theorem rGenerateRounds_lloyd (aRands : list Z) (k : Z) :
  seedsValid aRands →
  0 ≤ k →
  ∃ hCenters0 regions0 hCenters regions,
    rGenerateRounds k aRands = Some (hCenters0, regions0) ∧
    rGenerateRounds (k + 1) aRands = Some (hCenters, regions) ∧
    (∀ i, 0 ≤ i < hMapSize →
       ∃ r, vget regions i = Some r ∧ 0 ≤ r < numRegions ∧
            nearestRegion (hexFromAry i).1 (hexFromAry i).2 hCenters0 r) ∧
    ∀ r, 0 ≤ r < numRegions →
         vget hCenters r = Some (centerOfMass regions r).
Proof.
  intros Hseeds Hk.
  destruct (rGenerateRounds_spec k aRands Hseeds Hk)
    as ([hCenters0 regions0] & Hrun0 & Hcenters0 & Hlen0 & _).
  cbn [fst snd] in *.
  destruct (rAssignClosest_total hCenters0 regions0 Hcenters0 Hlen0)
    as (regions & Hpass & Hst & Htotal & _).
  destruct (hGetCenters_exact regions Htotal) as (hCenters & Hget & _ & Hexact).
  exists hCenters0, regions0, hCenters, regions. split; [done|]. split.
  { rewrite rGenerateRounds_succ by done. rewrite Hrun0.
    cbn [mbind option_bind]. unfold rGenerateRound. cbn [fst snd].
    rewrite Hpass. cbn [mbind option_bind]. rewrite Hget. done. }
  split; [|done]. intros i Hi.
  destruct (assignState_lookup hCenters0 regions i Hst Hi) as (r & Hr & Hvget).
  exists r. split; [done|].
  split; [by apply (regionsTotal_range regions i)|].
  destruct (rFindClosest_nearestRegion (hexFromAry i).1 (hexFromAry i).2
              hCenters0 (proj1 Hcenters0)) as (r' & Hr' & Hnear).
  congruence.
Qed.

Lemma rGenerateRounds_lloyd_witness :
  ∃ hCenters0 regions0 hCenters regions,
    rGenerateRounds 2 seedsSpread = Some (hCenters0, regions0) ∧
    rGenerateRounds (2 + 1) seedsSpread = Some (hCenters, regions) ∧
    (∀ i, 0 ≤ i < hMapSize →
       ∃ r, vget regions i = Some r ∧ 0 ≤ r < numRegions ∧
            nearestRegion (hexFromAry i).1 (hexFromAry i).2 hCenters0 r) ∧
    ∀ r, 0 ≤ r < numRegions →
         vget hCenters r = Some (centerOfMass regions r).
Proof.
  apply (rGenerateRounds_lloyd seedsSpread 2).
  - split; [reflexivity|]. unfold seedsSpread, hMapWidth, hMapHeight.
    repeat (apply Forall_cons; split); try apply Forall_nil; lia.
  - lia.
Defined.

(** ** Borders between regions *)

(** X14. The adjacency list that [regionNeighbors] builds for a total
    assignment is over [numRegions] regions, lists [r2] under [r1] exactly
    when the two regions differ and some hex of [r1] is at distance 1 from
    some hex of [r2], and is therefore symmetric. *)
Theorem regionNeighbors_borders (regions : list Z) :
  regionsTotal regions →
  ∃ adj,
    regionNeighbors regions = Some adj ∧
    adjOverRegions adj ∧
    (∀ r1 r2,
       adjacentRegions adj r1 r2 ↔
       r1 ≠ r2 ∧
       ∃ a b, 0 ≤ a < hMapSize ∧ 0 ≤ b < hMapSize ∧
              hexDist (hexFromAry a) (hexFromAry b) = 1 ∧
              vget regions a = Some r1 ∧ vget regions b = Some r2) ∧
    ∀ r1 r2, adjacentRegions adj r1 r2 → adjacentRegions adj r2 r1.
Proof.
  intros Htotal.
  destruct (regionNeighbors_spec regions Htotal) as (adj & Hrun & Hlen & Hadj).
  destruct (regionNeighbors_symmetric regions adj Htotal Hrun) as [Hover Hsym].
  exists adj. split; [done|]. split; [done|]. split; [|done].
  intros r1 r2. split.
  - intros (nbrs & Hnbrs & Hin).
    destruct (Hadj r1 nbrs Hnbrs) as [_ Hmem].
    apply Hmem in Hin as [Hne [(c & av & an & Hc & Hav & Hin & Hr1 & Hr2)|[_ (an & Hin & _)]]].
    2:{ by apply elem_of_nil in Hin. }
    split; [done|]. exists c, an.
    apply (aryNeighbors_hexDist c av an Hc Hav) in Hin as [Han Hone]. done.
  - intros (Hne & a & b & Ha & Hb & Hone & Hr1 & Hr2).
    pose proof (regionsTotal_range regions a r1 Htotal Hr1) as Hrange.
    destruct (vget_is_Some adj r1) as [nbrs Hnbrs]; [lia|].
    exists nbrs. split; [done|].
    destruct (Hadj r1 nbrs Hnbrs) as [_ Hmem]. apply Hmem.
    split; [done|]. left.
    destruct (aryNeighbors_spec a) as (av & Hav & _).
    exists a, av, b. split; [done|]. split; [done|]. split; [|done].
    by apply (aryNeighbors_hexDist a av b Ha Hav).
Qed.

Lemma regionNeighbors_borders_witness :
  ∃ adj,
    regionNeighbors regionsThree = Some adj ∧
    adjOverRegions adj ∧
    (∀ r1 r2,
       adjacentRegions adj r1 r2 ↔
       r1 ≠ r2 ∧
       ∃ a b, 0 ≤ a < hMapSize ∧ 0 ≤ b < hMapSize ∧
              hexDist (hexFromAry a) (hexFromAry b) = 1 ∧
              vget regionsThree a = Some r1 ∧ vget regionsThree b = Some r2) ∧
    ∀ r1 r2, adjacentRegions adj r1 r2 → adjacentRegions adj r2 r1.
Proof.
  apply (regionNeighbors_borders regionsThree).
  split; [reflexivity|].
  apply (bool_decide_unpack _). vm_compute. exact I.
Defined.

Example regionNeighbors_regionsThree :
  regionNeighbors regionsThree
  = Some ([[1; 2]; [0; 2]; [1; 0]] ++ replicate 15 []).
Proof. vm_compute. reflexivity. Qed.

(** ** When the colouring can clash *)

(** Terrains [0 .. m-1] in use among the regions of [nbrs] take [m]
    regions of [nbrs] below [r]. *)
Lemma terrainUsed_count r before nbrs m :
  terrainState r before →
  (∀ n, n ∈ nbrs → 0 ≤ n < numRegions) →
  0 ≤ m →
  (∀ t, 0 ≤ t < m → terrainUsed before nbrs t) →
  m ≤ Z.of_nat (length (filter (λ n, n < r) nbrs)).
Proof.
  intros (Hlen & Hlow & Hhigh) Hnbrs Hm Hused.
  set (g := λ n : Z, default (-1) (vget before n)).
  assert (seqZ 0 m ⊆+ (g <$> filter (λ n, n < r) nbrs)) as Hsub.
  { apply NoDup_submseteq; [apply NoDup_seqZ|]. intros t Ht.
    apply elem_of_seqZ in Ht. destruct (Hused t) as (n & Hin & Hn); [lia|].
    apply list_elem_of_fmap. exists n. split; [unfold g; by rewrite Hn|].
    apply list_elem_of_filter. split; [|done].
    destruct (decide (n < r)) as [|Hge]; [done|].
    rewrite Hhigh in Hn by (specialize (Hnbrs n Hin); lia).
    injection Hn as <-. lia. }
  apply submseteq_length in Hsub.
  rewrite length_seqZ, length_fmap in Hsub. lia.
Qed.

(** X15. The terrain that [assignTerrain] gives to region [r] is at most
    the number of lower-numbered regions in the neighbor list of [r] (so
    region 0 gets terrain 0), and a region that lists fewer than
    [numTerrains] lower-numbered regions never shares its terrain with one
    of them: the fall-back to terrain 0 needs [numTerrains] of them. *)
Theorem assignTerrain_degree_bound (adj : list (list Z)) (r : Z) :
  adjOverRegions adj →
  0 ≤ r < numRegions →
  ∃ terrain nbrs t,
    assignTerrain adj = Some terrain ∧
    vget adj r = Some nbrs ∧
    vget terrain r = Some t ∧
    0 ≤ t ≤ Z.of_nat (length (filter (λ n, n < r) nbrs)) ∧
    (Z.of_nat (length (filter (λ n, n < r) nbrs)) < numTerrains →
     ∀ n, n ∈ nbrs → n < r → vget terrain n ≠ Some t).
Proof.
  intros Hadj Hr.
  destruct (assignTerrain_at adj r Hadj Hr)
    as (before & terrain & nbrs & t & Hbefore & Hst & Hnbrs & _ &
        Hgreedy & Hrun & Ht & Hsame).
  exists terrain, nbrs, t. split; [done|]. split; [done|]. split; [done|].
  assert (∀ n, n ∈ nbrs → 0 ≤ n < numRegions) as Hrange.
  { intros n Hn. by apply (adjOverRegions_elem adj r nbrs n). }
  pose proof (terrainUsed_count r before nbrs) as Hcount.
  destruct Hgreedy as [(Ht' & Hfree & Hleast)|[-> Hfull]].
  - split.
    + split; [lia|]. apply Hcount; [done|done|lia|done].
    + intros _ n Hin Hlt Hclash. apply Hfree. exists n. split; [done|].
      rewrite <- Hsame by (specialize (Hrange n Hin); lia). done.
  - split.
    + split; [done|]. lia.
    + intros Hfew. specialize (Hcount numTerrains Hst Hrange).
      unfold numTerrains in *. lia.
Qed.

Lemma assignTerrain_degree_bound_witness :
  ∃ terrain nbrs t,
    assignTerrain adjTriangle = Some terrain ∧
    vget adjTriangle 2 = Some nbrs ∧
    vget terrain 2 = Some t ∧
    0 ≤ t ≤ Z.of_nat (length (filter (λ n, n < 2) nbrs)) ∧
    (Z.of_nat (length (filter (λ n, n < 2) nbrs)) < numTerrains →
     ∀ n, n ∈ nbrs → n < 2 → vget terrain n ≠ Some t).
Proof.
  apply (assignTerrain_degree_bound adjTriangle 2).
  - split; [reflexivity|]. unfold adjTriangle, numRegions. simpl.
    repeat (apply Forall_cons; split); try apply Forall_nil; lia.
  - unfold numRegions. lia.
Defined.

(** ** The generation as a whole *)

(** X16. For any valid seeds the three generation steps of [SDL_main] all
    return; every hex then has a region and that region a terrain of
    [0, numTerrains), so the index into the six tile images is in range;
    and two hexes at distance 1 that lie in different regions show
    different terrains, unless the later-processed of the two regions found
    all terrains in use among its neighbors. *)
Theorem generateMap_tiles (aRands : list Z) :
  seedsValid aRands →
  ∃ regions adjacencyList terrain,
    generateMap aRands = Some (regions, adjacencyList, terrain) ∧
    (∀ a, 0 ≤ a < hMapSize →
       ∃ r t, vget regions a = Some r ∧ vget terrain r = Some t ∧
              0 ≤ t < numTerrains) ∧
    ∀ a b ra rb ta tb,
      0 ≤ a < hMapSize → 0 ≤ b < hMapSize →
      hexDist (hexFromAry a) (hexFromAry b) = 1 →
      vget regions a = Some ra → vget regions b = Some rb →
      vget terrain ra = Some ta → vget terrain rb = Some tb →
      ra ≠ rb →
      ta ≠ tb ∨ allTerrainsUsedAt adjacencyList (Z.max ra rb).
Proof.
  intros Hseeds.
  destruct (rGenerateRounds_spec 4 aRands Hseeds) as (st & Hrun & Hst); [lia|].
  destruct Hst as (Hcenters & Hlen & _).
  destruct (rAssignClosest_total st.1 st.2 Hcenters Hlen)
    as (regions & Hfinal & _ & Htotal & _).
  assert (rGenerate aRands = Some regions) as Hgen.
  { unfold rGenerate. rewrite Hrun. done. }
  destruct (regionNeighbors_coloringValid regions Htotal) as (adj & Hadj & Hvalid).
  destruct (regionNeighbors_symmetric regions adj Htotal Hadj) as [Hover _].
  destruct (assignTerrain_loop adj 0 numRegions terrainInit Hover)
    as (terrain & Hterrain & (_ & Hlow & _) & _);
    [unfold numRegions; lia|lia|apply terrainState_init|].
  exists regions, adj, terrain. split.
  { unfold generateMap. rewrite Hgen. cbn [mbind option_bind].
    rewrite Hadj. cbn [mbind option_bind]. unfold assignTerrain.
    fold terrainInit. rewrite Hterrain. done. }
  split.
  - intros a Ha. destruct (regionsTotal_get regions a Htotal Ha) as (r & Hr & Hrange).
    destruct (Hlow r Hrange) as (t & Ht & Htrange). exists r, t. done.
  - intros a b ra rb ta tb Ha Hb Hone Hra Hrb Hta Htb Hne.
    apply (Hvalid terrain ra rb ta tb); try done.
    destruct (regionNeighbors_spec regions Htotal) as (adj' & Hadj' & Hlen' & Hstate).
    rewrite Hadj in Hadj'. injection Hadj' as <-.
    pose proof (regionsTotal_range regions a ra Htotal Hra) as Hrange.
    destruct (vget_is_Some adj ra) as [nbrs Hnbrs]; [lia|].
    exists nbrs. split; [done|].
    destruct (Hstate ra nbrs Hnbrs) as [_ Hmem]. apply Hmem.
    split; [done|]. left.
    destruct (aryNeighbors_spec a) as (av & Hav & _).
    exists a, av, b. split; [done|]. split; [done|]. split; [|done].
    by apply (aryNeighbors_hexDist a av b Ha Hav).
Qed.

Lemma generateMap_tiles_witness :
  ∃ regions adjacencyList terrain,
    generateMap seedsSpread = Some (regions, adjacencyList, terrain) ∧
    (∀ a, 0 ≤ a < hMapSize →
       ∃ r t, vget regions a = Some r ∧ vget terrain r = Some t ∧
              0 ≤ t < numTerrains) ∧
    ∀ a b ra rb ta tb,
      0 ≤ a < hMapSize → 0 ≤ b < hMapSize →
      hexDist (hexFromAry a) (hexFromAry b) = 1 →
      vget regions a = Some ra → vget regions b = Some rb →
      vget terrain ra = Some ta → vget terrain rb = Some tb →
      ra ≠ rb →
      ta ≠ tb ∨ allTerrainsUsedAt adjacencyList (Z.max ra rb).
Proof.
  apply (generateMap_tiles seedsSpread).
  split; [reflexivity|]. unfold seedsSpread, hMapWidth, hMapHeight.
  repeat (apply Forall_cons; split); try apply Forall_nil; lia.
Defined.

(** ** Regions in one piece *)

Lemma half_split x :
  0 ≤ x → ∃ k, x `quot` 2 = k ∧ (x = 2 * k ∨ x = 2 * k + 1).
Proof. intros Hx. exists (x `quot` 2). lia. Qed.

(** From a hex of the map, the step in the direction [towardsDir] stays on
    the map and is one nearer to the other hex. *)
Lemma towardsDir_closer x1 y1 x2 y2 :
  hexInBounds (x1, y1) → hexInBounds (x2, y2) →
  (x1, y1) ≠ (x2, y2) →
  let dir := towardsDir (x1, y1) (x2, y2) in
  0 ≤ dir < 6 ∧
  hexInBounds (x1 + dirColumnStep dir, y1 + dirRowStep dir x1) ∧
  cubeDist (x1 + dirColumnStep dir, y1 + dirRowStep dir x1) (x2, y2)
  = cubeDist (x1, y1) (x2, y2) - 1.
Proof.
  intros H1 H2 Hne.
  assert (x1 ≠ x2 ∨ y1 ≠ y2) as Hne'.
  { destruct (decide (x1 = x2)) as [->|]; [|by left]. right. congruence. }
  clear Hne. cbv zeta.
  unfold hexInBounds, hMapWidth, hMapHeight, cubeDist, cubeR, towardsDir in *.
  cbn [fst snd] in *.
  unfold dirColumnStep, dirRowStep, diagColumnStep, diagRowStep.
  destruct (parity_split x1) as (k1 & p1 & E1 & Hk1 & Hp1 & Hr1 & Hq1); [lia|].
  destruct (half_split x2) as (k2 & Hq2 & Hp2); [lia|].
  rewrite Hr1, Hq1, Hq2. clear Hr1 Hq1 Hq2.
  destruct Hp1 as [-> | ->]; cbn [Z.eqb];
  repeat match goal with
    | |- context [Z.gtb ?a ?b] => rewrite (Z.gtb_ltb a b)
    | |- context [Z.eqb x2 x1] => destruct (Z.eqb_spec x2 x1)
    | |- context [Z.ltb ?a ?b] => destruct (Z.ltb_spec a b)
    end; cbn [Z.eqb Pos.eqb orb];
  (split; [lia|]); (split; [lia|]);
  match goal with
  | |- context [Z.quot ?t 2] =>
      let k := fresh "k" in let Hq := fresh "Hq" in
      destruct (half_split t) as (k & Hq & ?); [lia|]; rewrite Hq; clear Hq
  end.
  all: destruct Hp2 as [Hp2|Hp2].
  all: match goal with H : _ ∨ _ |- _ => destruct H end.
  all: try (exfalso; lia).
  all: lia.
Qed.

Lemma hexDist_zero h1 h2 :
  hexInBounds h1 → hexInBounds h2 → hexDist h1 h2 = 0 → h1 = h2.
Proof.
  intros H1 H2. rewrite hexDist_cubeDist by done.
  destruct h1 as [x1 y1], h2 as [x2 y2].
  unfold hexInBounds, hMapWidth, hMapHeight, cubeDist, cubeR in *.
  cbn [fst snd] in *.
  intros Hzero. assert (x1 = x2) as -> by lia. f_equal. lia.
Qed.

Lemma regionChain_target regions r aEnd aPos :
  regionChain regions r aEnd aPos → vget regions aEnd = Some r.
Proof. induction 1; done. Qed.

(** A hex that is not on the center of its Voronoi cell has a neighbor in
    the same cell that is one nearer to the center. *)
Lemma nearestRegion_closer hCenters r c aPos :
  Forall (λ c, c = hInvalid ∨ hexInBounds c) hCenters →
  vget hCenters r = Some c → hexInBounds c →
  0 ≤ aPos < hMapSize →
  nearestRegion (hexFromAry aPos).1 (hexFromAry aPos).2 hCenters r →
  hexFromAry aPos ≠ c →
  ∃ dir aNext,
    aryGetNeighbor aPos dir = Some aNext ∧ 0 ≤ aNext < hMapSize ∧
    hexDist (hexFromAry aNext) c = hexDist (hexFromAry aPos) c - 1 ∧
    ∀ r', nearestRegion (hexFromAry aNext).1 (hexFromAry aNext).2 hCenters r' →
          r' = r.
Proof.
  intros Hcs Hc Hcin Hpos Hnear Hne.
  pose proof (hexFromAry_in_bounds aPos Hpos) as Hin.
  destruct (hexFromAry aPos) as [x1 y1] eqn:Hh. destruct c as [x2 y2].
  cbn [fst snd] in Hnear.
  destruct (towardsDir_closer x1 y1 x2 y2 Hin Hcin Hne) as (Hdir & Hin' & Hcloser).
  set (dir := towardsDir (x1, y1) (x2, y2)) in *.
  set (h' := (x1 + dirColumnStep dir, y1 + dirRowStep dir x1)) in *.
  destruct (hexFromAry_aryFromHex h' Hin') as [Hrange Hback].
  assert (hexDist (x1, y1) h' = 1) as Hone.
  { apply hexDist_one_step; [done..|]. by exists dir. }
  exists dir, (aryFromHex h'). split.
  { apply aryGetNeighbor_step; [done..|]. rewrite Hback, Hh. done. }
  split; [done|]. rewrite Hback.
  rewrite !(hexDist_cubeDist _ (x2, y2)) by done. split; [done|].
  assert (∀ i c', vget hCenters i = Some c' →
                  hexDist h' c' < Sint16_max → hexInBounds c') as Hvalid.
  { intros i c' Hc' Hlt. apply vget_Some in Hc' as [_ Hc'].
    rewrite Forall_lookup in Hcs. destruct (Hcs _ _ Hc') as [->|]; [|done].
    rewrite hexDist_invalid_r in Hlt. lia. }
  assert (∀ c', hexInBounds c' →
                hexDist (x1, y1) c' ≤ 1 + hexDist h' c') as Htri.
  { intros c' Hc'. rewrite <- Hone. rewrite !hexDist_cubeDist by done.
    apply cubeDist_triangle. }
  pose proof (hexDist_in_bounds h' (x2, y2) Hin' Hcin) as Hlt.
  pose proof (hexDist_cubeDist h' (x2, y2) Hin' Hcin) as Hd'.
  pose proof (hexDist_cubeDist (x1, y1) (x2, y2) Hin Hcin) as Hd.
  intros r' Hnear'. subst h'. cbn [fst snd] in *.
  destruct Hnear' as [[-> Hfar]|(Hr' & c' & Hc' & Hlt' & Hleast' & Hfirst')].
  { specialize (Hfar r _ Hc). lia. }
  destruct Hnear as [[-> _]|(Hr & c0 & Hc0 & _ & Hleast & Hfirst)].
  { apply vget_lt in Hc. lia. }
  rewrite Hc in Hc0. injection Hc0 as <-.
  pose proof (Hvalid r' c' Hc' Hlt') as Hcin'.
  pose proof (Htri c' Hcin') as Htri'.
  pose proof (Hleast' r _ Hc) as Hle'.
  pose proof (Hleast r' _ Hc') as Hle.
  destruct (Z.lt_trichotomy r' r) as [Hlow|[Heq|Hhigh]]; [|done|].
  - pose proof (Hfirst r' c' ltac:(lia) Hc'). lia.
  - pose proof (Hfirst' r _ ltac:(lia) Hc). lia.
Qed.

(** In a Voronoi assignment every hex is linked to the center of its cell
    within the cell. *)
Lemma nearestRegion_chain hCenters regions :
  centersState hCenters →
  Z.of_nat (length regions) = hMapSize →
  (∀ i, 0 ≤ i < hMapSize →
     ∃ r, vget regions i = Some r ∧
          nearestRegion (hexFromAry i).1 (hexFromAry i).2 hCenters r) →
  ∀ aPos r, vget regions aPos = Some r →
    ∃ c, vget hCenters r = Some c ∧ hexInBounds c ∧
         regionChain regions r (aryFromHex c) aPos.
Proof.
  intros (HlenC & Hcs & Hex) Hlen Hcells aPos r Hr.
  assert (0 ≤ aPos < hMapSize) as Hpos.
  { apply vget_lt in Hr. lia. }
  pose proof (hexFromAry_in_bounds aPos Hpos) as Hin.
  destruct (Hcells aPos Hpos) as (r0 & Hr0 & Hnear).
  rewrite Hr in Hr0. injection Hr0 as <-.
  assert (∃ c, vget hCenters r = Some c ∧ hexInBounds c) as (c & Hc & Hcin).
  { destruct Hnear as [[-> Hfar]|(_ & c & Hc & Hlt & _)].
    - apply Exists_exists in Hex as (c0 & Hel & Hc0).
      apply list_elem_of_lookup in Hel as [k Hk].
      assert (vget hCenters (Z.of_nat k) = Some c0) as Hget.
      { apply vget_Some. split; [lia|]. by rewrite Nat2Z.id. }
      specialize (Hfar _ _ Hget).
      rewrite <- surjective_pairing in Hfar.
      pose proof (hexDist_in_bounds _ _ Hin Hc0). lia.
    - exists c. split; [done|]. pose proof Hc as Hc'.
      apply vget_Some in Hc' as [_ Hc'].
      rewrite Forall_lookup in Hcs. destruct (Hcs _ _ Hc') as [->|]; [|done].
      rewrite hexDist_invalid_r in Hlt. lia. }
  exists c. split; [done|]. split; [done|].
  assert (∃ n, hexDist (hexFromAry aPos) c = Z.of_nat n) as [n Hn].
  { exists (Z.to_nat (hexDist (hexFromAry aPos) c)).
    rewrite hexDist_cubeDist by done. unfold cubeDist. lia. }
  clear Hnear Hin. revert aPos Hr Hpos Hn.
  induction n as [|n IH]; intros aPos Hr Hpos Hn.
  - apply hexDist_zero in Hn; [|by apply hexFromAry_in_bounds|done].
    rewrite <- Hn, aryFromHex_hexFromAry by done. by apply regionChain_end.
  - destruct (Hcells aPos Hpos) as (r0 & Hr0 & Hnear).
    rewrite Hr in Hr0. injection Hr0 as <-.
    assert (hexFromAry aPos ≠ c) as Hne.
    { intros Heq. rewrite Heq in Hn.
      rewrite hexDist_cubeDist in Hn by done. unfold cubeDist in Hn. lia. }
    destruct (nearestRegion_closer hCenters r c aPos Hcs Hc Hcin Hpos Hnear Hne)
      as (dir & aNext & Hstep & Hrange & Hcloser & Hsame).
    destruct (Hcells aNext Hrange) as (r' & Hr' & Hnear').
    rewrite (Hsame r' Hnear') in Hr'.
    apply (regionChain_step regions r _ aPos dir aNext); [done..|].
    apply IH; [done..|]. lia.
Qed.

(** X17. The regions that [rGenerate] returns are each in one piece
    around their center: the center of every region that has a hex is a hex
    of that region, and every hex of the region is linked to it by steps of
    [aryGetNeighbor] over hexes of the region. *)
Theorem rGenerate_regions_connected (aRands : list Z) :
  seedsValid aRands →
  ∃ hCenters regions4 regions,
    rGenerateRounds 4 aRands = Some (hCenters, regions4) ∧
    rGenerate aRands = Some regions ∧
    ∀ aPos r, vget regions aPos = Some r →
      ∃ c, vget hCenters r = Some c ∧ hexInBounds c ∧
           vget regions (aryFromHex c) = Some r ∧
           regionChain regions r (aryFromHex c) aPos.
Proof.
  intros Hseeds.
  destruct (rGenerateRounds_spec 4 aRands Hseeds)
    as ([hCenters regions4] & Hrun & Hcenters & Hlen & _); [lia|].
  cbn [fst snd] in *.
  destruct (rAssignClosest_spec hCenters regions4 (proj1 Hcenters) Hlen)
    as (regions & Hfinal & Hst).
  exists hCenters, regions4, regions. split; [done|]. split.
  { unfold rGenerate. rewrite Hrun. done. }
  intros aPos r Hr.
  destruct (nearestRegion_chain hCenters regions Hcenters (proj1 Hst)) with
    (aPos := aPos) (r := r) as (c & Hc & Hcin & Hchain); [|done|].
  { intros i Hi.
    destruct (assignState_lookup hCenters regions i Hst Hi) as (r' & Hr' & Hget).
    exists r'. split; [done|].
    destruct (rFindClosest_nearestRegion (hexFromAry i).1 (hexFromAry i).2
                hCenters (proj1 Hcenters)) as (r'' & Hr'' & Hnear).
    congruence. }
  exists c. split; [done|]. split; [done|]. split; [|done].
  by apply (regionChain_target regions r _ aPos).
Qed.

Lemma rGenerate_regions_connected_witness :
  ∃ hCenters regions4 regions,
    rGenerateRounds 4 seedsSpread = Some (hCenters, regions4) ∧
    rGenerate seedsSpread = Some regions ∧
    ∀ aPos r, vget regions aPos = Some r →
      ∃ c, vget hCenters r = Some c ∧ hexInBounds c ∧
           vget regions (aryFromHex c) = Some r ∧
           regionChain regions r (aryFromHex c) aPos.
Proof.
  apply (rGenerate_regions_connected seedsSpread).
  split; [reflexivity|]. unfold seedsSpread, hMapWidth, hMapHeight.
  repeat (apply Forall_cons; split); try apply Forall_nil; lia.
Defined.
